(** * The API's client error object and request router

    A shallow embedding of [framework/errors/clientError.ts],
    [host/routing/router.ts] and the [ErrorCodes] table, together with the
    collaborators of the authorization pipeline (issuer metadata, claims
    cache) that the router drives. *)

From Stdlib Require Import ZArith QArith.
From stdpp Require Import gmap strings list.

Local Open Scope Z_scope.

Set Warnings "-register-all".

(** ** JavaScript values *)

Module Js.

(** A JavaScript [number]: every finite double is a rational, so a finite
    value is kept as its exact rational; [-0] and [+0] are both
    [Finite 0] (they compare alike and print alike in JSON). *)
Inductive number : Type :=
| NaN
| Finite (q : Q)
| Infinity (negative : bool).

Definition of_Z (z : Z) : number := Finite (inject_Z z).

Definition isNaN (n : number) : bool :=
  match n with NaN => true | _ => false end.

(** [a < b]; any comparison with [NaN] is false. *)
Definition lt (a b : number) : bool :=
  match a, b with
  | NaN, _ | _, NaN => false
  | Finite x, Finite y => negb (Qle_bool y x)
  | Finite _, Infinity neg => negb neg
  | Infinity neg, Finite _ => neg
  | Infinity n1, Infinity n2 => n1 && negb n2
  end.

Definition gt (a b : number) : bool := lt b a.

Definition le (a b : number) : bool :=
  match a, b with
  | NaN, _ | _, NaN => false
  | _, _ => negb (lt b a)
  end.

(** Values of type [any], as far as the modelled code builds them. An
    object keeps its own properties in insertion order, the order
    [JSON.stringify] prints them in. *)
Inductive value : Type :=
| Undefined
| Null
| Bool (b : bool)
| Num (n : number)
| Str (s : string)
| Obj (props : list (string * value)).

(** [if (v)]: the falsy values are [undefined], [null], [false], [0],
    [NaN] and the empty string. *)
Definition truthy (v : value) : bool :=
  match v with
  | Undefined | Null => false
  | Bool b => b
  | Num NaN => false
  | Num (Finite q) => negb (Qeq_bool q 0)
  | Num (Infinity _) => true
  | Str s => negb (String.eqb s "")
  | Obj _ => true
  end.

Definition props : Type := list (string * value).

Definition has_key (k : string) (o : props) : bool :=
  existsb (fun kv => String.eqb (fst kv) k) o.

Fixpoint get (k : string) (o : props) : value :=
  match o with
  | [] => Undefined
  | (k', v) :: o' => if String.eqb k' k then v else get k o'
  end.

(** [o.k = v]: an existing property keeps its place, a new one is added
    last. *)
Fixpoint set (k : string) (v : value) (o : props) : props :=
  match o with
  | [] => [(k, v)]
  | (k', v') :: o' =>
      if String.eqb k' k then (k', v) :: o' else (k', v') :: set k v o'
  end.

Definition keys (o : props) : list string := map fst o.

(** A string as the sequence of its UTF-16 code units. *)
Definition code_units : Type := list N.

Definition units (s : string) : code_units :=
  map Ascii.N_of_ascii (String.list_ascii_of_string s).

(** WhiteSpace and LineTerminator code points, the ones [parseInt] skips
    at the start of its input. *)
Definition is_white_space (c : N) : bool :=
  existsb (N.eqb c)
    [0x9; 0xA; 0xB; 0xC; 0xD; 0x20; 0xA0; 0x1680; 0x2028; 0x2029; 0x202F;
     0x205F; 0x3000; 0xFEFF]%N
  || ((0x2000 <=? c) && (c <=? 0x200A))%N.

Fixpoint trim_start (s : code_units) : code_units :=
  match s with
  | c :: s' => if is_white_space c then trim_start s' else s
  | [] => []
  end.

(** The value of a code unit as a digit: [0-9], then [a-z] or [A-Z] for
    10 to 35. *)
Definition digit_value (c : N) : option Z :=
  if ((48 <=? c) && (c <=? 57))%N then Some (Z.of_N c - 48)
  else if ((97 <=? c) && (c <=? 122))%N then Some (Z.of_N c - 87)
  else if ((65 <=? c) && (c <=? 90))%N then Some (Z.of_N c - 55)
  else None.

(** The longest prefix of radix-[R] digits. *)
Fixpoint take_digits (R : Z) (s : code_units) : list Z :=
  match s with
  | c :: s' =>
      match digit_value c with
      | Some d => if d <? R then d :: take_digits R s' else []
      | None => []
      end
  | [] => []
  end.

Definition digits_value (R : Z) (ds : list Z) : Z :=
  fold_left (fun acc d => acc * R + d) ds 0.

Definition strip_sign (s : code_units) : Z * code_units :=
  match s with
  | 45%N :: r => (-1, r)
  | 43%N :: r => (1, r)
  | _ => (1, s)
  end.

Definition strip_hex_prefix (s : code_units) : option code_units :=
  match s with
  | 48%N :: x :: r => if (N.eqb x 120 || N.eqb x 88)%N then Some r else None
  | _ => None
  end.

(** The number value of an integer: the double nearest to it, ties to the
    even significand; an integer that rounds beyond the largest double
    becomes an infinity. Up to 2^53 in magnitude nothing is lost. *)
Definition round_to_double (z : Z) : number :=
  let a := Z.abs z in
  let e := Z.log2 a - 52 in
  if e <=? 0 then Finite (inject_Z z)
  else
    let q := Z.shiftr a e in
    let r := a - Z.shiftl q e in
    let half := Z.shiftl 1 (e - 1) in
    let q' := if (half <? r) || ((half =? r) && Z.odd q) then q + 1 else q in
    let m := Z.shiftl q' e in
    if 2 ^ 1024 <=? m then Infinity (z <? 0)
    else Finite (inject_Z (Z.sgn z * m)).

(** The global [parseInt (string, radix)] of ECMAScript, for a [radix]
    that is already a 32-bit integer. The digits are read as the exact
    integer they denote, which is then rounded once to a double, as the
    engines do. *)
Definition parseInt (s : code_units) (radix : Z) : number :=
  let '(sign, rest) := strip_sign (trim_start s) in
  if (radix =? 0) || ((2 <=? radix) && (radix <=? 36)) then
    let '(R, rest) :=
      if (radix =? 0) || (radix =? 16) then
        match strip_hex_prefix rest with
        | Some r => (16, r)
        | None => (if radix =? 0 then 10 else radix, rest)
        end
      else (radix, rest) in
    match take_digits R rest with
    | [] => NaN
    | ds => round_to_double (sign * digits_value R ds)
    end
  else NaN.

End Js.

(** ** The list of API error codes *)

Module ErrorCodes.

Definition serverError : string := "server_error".
Definition metadataLookupFailure : string := "metadata_lookup_failure".
Definition signingKeyDownloadFailure : string := "signing_key_download".
Definition graphTokenExchangeError : string := "graph_token_exchange".
Definition userinfoFailure : string := "userinfo_failure".
Definition claimsFailure : string := "claims_failure".
Definition companyNotFound : string := "company_not_found".
Definition invalidCompanyId : string := "invalid_company_id".
Definition fileReadError : string := "file_read_error".

End ErrorCodes.

(** ** The default error object returned to the client *)

Module ClientError.

Record t : Type := mk {
  _statusCode : Js.number;
  _errorCode : string;
  message : string;
  _logContext : Js.value;
  _area : string;
  _id : Js.number;
  _utcTime : string
}.

(** [new ClientError (statusCode, errorCode, message)] *)
Definition new (statusCode : Js.number) (errorCode message : string) : t :=
  {| _statusCode := statusCode;
     _errorCode := errorCode;
     message := message;
     _logContext := Js.Null;
     _area := "";
     _id := Js.of_Z 0;
     _utcTime := "" |}.

Definition getStatusCode (this : t) : Js.number := _statusCode this.

(** [this.LogContext = value] *)
Definition set_LogContext (value : Js.value) (this : t) : t :=
  {| _statusCode := _statusCode this;
     _errorCode := _errorCode this;
     message := message this;
     _logContext := value;
     _area := _area this;
     _id := _id this;
     _utcTime := _utcTime this |}.

Definition setExceptionDetails (area : string) (id : Js.number)
    (utcTime : string) (this : t) : t :=
  {| _statusCode := _statusCode this;
     _errorCode := _errorCode this;
     message := message this;
     _logContext := _logContext this;
     _area := area;
     _id := id;
     _utcTime := utcTime |}.

(** The guard of [toResponseFormat]:
    [this._id > 0 && this._area.length > 0 && this._utcTime.length > 0]. *)
Definition has_details (this : t) : bool :=
  Js.gt (_id this) (Js.of_Z 0)
  && (0 <? Z.of_nat (String.length (_area this)))
  && (0 <? Z.of_nat (String.length (_utcTime this))).

Definition toResponseFormat (this : t) : Js.props :=
  let body :=
    [("code", Js.Str (_errorCode this)); ("message", Js.Str (message this))] in
  if has_details this then
    let body := Js.set "id" (Js.Num (_id this)) body in
    let body := Js.set "area" (Js.Str (_area this)) body in
    Js.set "utcTime" (Js.Str (_utcTime this)) body
  else body.

Definition toLogFormat (this : t) : Js.props :=
  let data :=
    [("statusCode", Js.Num (_statusCode this));
     ("clientError", Js.Obj (toResponseFormat this))] in
  if Js.truthy (_logContext this) then Js.set "context" (_logContext this) data
  else data.

(** The two ways the class lets a caller change an error after its
    construction. *)
Inductive Mutation : Type :=
| SetLogContext (value : Js.value)
| SetExceptionDetails (area : string) (id : Js.number) (utcTime : string).

Definition mutate (this : t) (op : Mutation) : t :=
  match op with
  | SetLogContext value => set_LogContext value this
  | SetExceptionDetails area id utcTime => setExceptionDetails area id utcTime this
  end.

Definition mutate_all (this : t) (ops : list Mutation) : t :=
  fold_left mutate ops this.

(** The status classes of the error taxonomy. *)
Definition is_status_class (hundreds : Z) (this : t) : bool :=
  Js.le (Js.of_Z (hundreds * 100)) (_statusCode this)
  && Js.lt (_statusCode this) (Js.of_Z (hundreds * 100 + 100)).

End ClientError.

(** ** The data model of the authorization pipeline

    Modelled from the spec: the classes that declare these records are not
    among the sources; the fields are those of the spec's data model. *)

Definition timestamp : Type := Z.

(** Modelled from the spec: the part of the API configuration handed to
    the OAuth classes (the [Configuration] class is not among the sources):
    the issuer URL and the expected audience. *)
Record OAuthConfiguration : Type := {
  issuerUrl : string;
  expectedAudience : string
}.

Record Configuration : Type := {
  oauth : OAuthConfiguration
}.

Record IssuerConfig : Type := {
  issuer : string;
  jwksUri : string;
  requiredAudience : string
}.

Record SigningKey : Type := {
  keyId : string;
  publicKey : string;
  algorithm : string
}.

Record BaseClaims : Type := {
  subject : string;
  scopes : gset string;
  expiry : timestamp;
  claims_issuer : string;
  audience : string
}.

Record CustomClaims : Type := {
  resources : gset string
}.

Record ClaimsPrincipal : Type := {
  base : BaseClaims;
  custom : CustomClaims
}.

Record CacheEntry : Type := {
  principal : ClaimsPrincipal;
  expiresAt : timestamp
}.

(** Modelled from the spec: the closed set of classified failures of the
    pipeline (the classes that raise them are not among the sources), with
    the HTTP status each one maps to and its code in [ErrorCodes]. *)
Inductive Failure : Type :=
| InvalidToken
| MetadataLookupFailure
| SigningKeyDownloadFailure
| ClaimsFailure
| ServerError.

Definition failure_status (f : Failure) : Z :=
  match f with
  | InvalidToken => 401
  | _ => 500
  end.

(** [ErrorCodes] has no entry for the 401 failure. *)
Definition failure_code (f : Failure) : option string :=
  match f with
  | InvalidToken => None
  | MetadataLookupFailure => Some ErrorCodes.metadataLookupFailure
  | SigningKeyDownloadFailure => Some ErrorCodes.signingKeyDownloadFailure
  | ClaimsFailure => Some ErrorCodes.claimsFailure
  | ServerError => Some ErrorCodes.serverError
  end.

(** What a [throw] (or a rejected promise) carries. *)
Inductive exn : Type :=
| ClientErr (e : ClientError.t)
| Classified (f : Failure)
| Other (v : Js.value).

(** ** Issuer metadata *)

Module IssuerMetadata.

Inductive Fetch : Type := FetchDiscovery | FetchKeys.

#[global] Instance Fetch_eq_dec : EqDecision Fetch.
Proof. solve_decision. Defined.

(** The identity provider as the process sees it: what a fetch of the
    discovery document and of the key set would return now ([None] when
    unreachable or unparsable), and the fetches made so far. *)
Record Net : Type := {
  discovery_doc : option (IssuerConfig * list SigningKey);
  jwks_doc : option (list SigningKey);
  fetched : list Fetch
}.

Definition fetch (f : Fetch) (n : Net) : Net :=
  {| discovery_doc := discovery_doc n;
     jwks_doc := jwks_doc n;
     fetched := fetched n ++ [f] |}.

Record t : Type := {
  configuration : OAuthConfiguration;
  config : option IssuerConfig;
  keys : list SigningKey
}.

(** [new IssuerMetadata (oauth)]: nothing is loaded yet. *)
Definition new (oauth : OAuthConfiguration) : t :=
  {| configuration := oauth; config := None; keys := [] |}.

(** Modelled from the spec: [IssuerMetadata.load], which is not among the
    sources. It fetches and stores the issuer configuration and the
    initial key set, and fails with [MetadataLookupFailure] if the
    discovery document cannot be retrieved or parsed. *)
Definition load (this : t) (n : Net) : (Failure + t) * Net :=
  match discovery_doc n with
  | Some (c, ks) =>
      (inr {| configuration := configuration this;
              config := Some c;
              keys := ks |}, fetch FetchDiscovery n)
  | None => (inl MetadataLookupFailure, fetch FetchDiscovery n)
  end.

Definition lookup (kid : string) (ks : list SigningKey) : option SigningKey :=
  find (fun k => String.eqb (keyId k) kid) ks.

(** Modelled from the spec: the refresh of the key set, which is not among
    the sources. A successful fetch replaces the key set wholesale; a
    failed one leaves the metadata as it was. *)
Definition refresh (this : t) (n : Net) : t * Net :=
  (match jwks_doc n with
   | Some ks =>
       {| configuration := configuration this;
          config := config this;
          keys := ks |}
   | None => this
   end, fetch FetchKeys n).

(** Modelled from the spec: [IssuerMetadata.getSigningKey], which is not
    among the sources. It returns the matching key; if not present, it
    performs one refresh of the key set and retries the lookup once; if
    still absent, it fails with [SigningKeyDownloadFailure]. *)
Definition getSigningKey (kid : string) (this : t) (n : Net)
  : (Failure + SigningKey) * t * Net :=
  match lookup kid (keys this) with
  | Some k => (inr k, this, n)
  | None =>
      let '(this', n') := refresh this n in
      match lookup kid (keys this') with
      | Some k => (inr k, this', n')
      | None => (inl SigningKeyDownloadFailure, this', n')
      end
  end.

Definition refreshes (n : Net) : nat :=
  length (filter (fun f => f = FetchKeys) (fetched n)).

End IssuerMetadata.

(** ** The claims cache *)

Module ClaimsCache.

Definition caller : Type := nat.

(** Modelled from the spec: a cache key (a stable hash of the raw token)
    maps to an in-progress-or-completed computation handle. *)
Inductive Slot : Type :=
| InFlight (waiters : list caller)
| Completed (entry : CacheEntry).

Record t : Type := {
  configuration : OAuthConfiguration;
  slots : gmap string Slot
}.

(** [new ClaimsCache (oauth)] *)
Definition new (oauth : OAuthConfiguration) : t :=
  {| configuration := oauth; slots := ∅ |}.

Definition with_slots (this : t) (m : gmap string Slot) : t :=
  {| configuration := configuration this; slots := m |}.

(** An entry is live up to and including its expiry time. *)
Definition live (now : timestamp) (e : CacheEntry) : bool :=
  now <=? expiresAt e.

(** What the cache does that a caller can see: it invokes the compute
    function on behalf of a caller, or it settles a caller's pending
    [getOrCompute] with a principal or with a failure. *)
Inductive Output : Type :=
| Compute (k : string) (c : caller)
| Return (k : string) (c : caller) (r : exn + ClaimsPrincipal).

(** Modelled from the spec: [ClaimsCache.getOrCompute (tokenKey,
    computeFn)], which is not among the sources, up to the point where the
    caller is suspended. A live entry is returned at once; with no entry,
    or an expired one (removed here, on access), this caller starts the
    one computation; with a computation in flight the caller waits for
    it. *)
Definition getOrCompute (c : caller) (k : string) (now : timestamp) (this : t)
  : t * list Output :=
  match slots this !! k with
  | Some (Completed e) =>
      if live now e then (this, [Return k c (inr (principal e))])
      else (with_slots this (<[k := InFlight [c]]> (delete k (slots this))),
            [Compute k c])
  | Some (InFlight ws) =>
      (with_slots this (<[k := InFlight (ws ++ [c])]> (slots this)), [])
  | None =>
      (with_slots this (<[k := InFlight [c]]> (slots this)), [Compute k c])
  end.

(** Modelled from the spec: the end of the computation in flight for [k]
    with result [r]. A principal is stored with
    [expiresAt = principal.base.expiry]; a failure is not stored; either
    way every waiter gets [r]. *)
Definition settle (k : string) (r : exn + ClaimsPrincipal) (this : t)
  : t * list Output :=
  match slots this !! k with
  | Some (InFlight ws) =>
      (match r with
       | inr p =>
           with_slots this
             (<[k := Completed {| principal := p; expiresAt := expiry (base p) |}]>
                (slots this))
       | inl _ => with_slots this (delete k (slots this))
       end,
       map (fun c => Return k c r) ws)
  | _ => (this, [])
  end.

(** Modelled from the spec: requests are handled concurrently on an event
    loop, which interleaves calls and completions, for any keys; each is
    atomic. *)
Inductive Input : Type :=
| Call (c : caller) (k : string) (now : timestamp)
| Settle (k : string) (r : exn + ClaimsPrincipal).

Definition step (i : Input) (this : t) : t * list Output :=
  match i with
  | Call c k now => getOrCompute c k now this
  | Settle k r => settle k r this
  end.

Fixpoint run (inputs : list Input) (this : t) : t * list Output :=
  match inputs with
  | [] => (this, [])
  | i :: inputs' =>
      let '(this', out) := step i this in
      let '(this'', out') := run inputs' this' in
      (this'', out ++ out')
  end.

Definition input_key (i : Input) : string :=
  match i with Call _ k _ => k | Settle k _ => k end.

Definition output_key (o : Output) : string :=
  match o with Compute k _ => k | Return k _ _ => k end.

Definition is_compute (k : string) (o : Output) : bool :=
  match o with Compute k' _ => String.eqb k' k | Return _ _ _ => false end.

(** How many times the compute function was invoked for [k]. *)
Definition computations (k : string) (out : list Output) : nat :=
  length (List.filter (is_compute k) out).

(** The stored entry for [k], if any. *)
Definition entry (k : string) (this : t) : option CacheEntry :=
  match slots this !! k with
  | Some (Completed e) => Some e
  | _ => None
  end.

(** No entry outlives its token. *)
Definition entries_bounded (this : t) : Prop :=
  ∀ k e, entry k this = Some e → expiresAt e <= expiry (base (principal e)).

(** No live entry for [k] at time [now], and no computation in flight. *)
Definition idle (k : string) (now : timestamp) (this : t) : Prop :=
  match slots this !! k with
  | None => True
  | Some (Completed e) => live now e = false
  | Some (InFlight _) => False
  end.

Definition reachable (this : t) : Prop :=
  ∃ oauth inputs, this = fst (run inputs (new oauth)).

End ClaimsCache.

(** ** Objects, requests and the world a handler runs in *)

(** An object reference: each [new] yields a reference never handed out
    before. *)
Definition ref : Type := nat.

Inductive Class : Type :=
| ClaimsCacheClass
| IssuerMetadataClass
| AuthenticatorClass
| SampleCustomClaimsProviderClass
| AuthorizerClass
| JsonFileReaderClass
| CompanyRepositoryClass
| CompanyServiceClass.

#[global] Instance Class_eq_dec : EqDecision Class.
Proof. solve_decision. Defined.

(** The per-request objects, each with the arguments its constructor
    receives in the router. *)
Record Authenticator : Type := {
  authenticator_ref : ref;
  authenticator_oauth : OAuthConfiguration;
  authenticator_issuer : option IssuerConfig
}.

Record SampleCustomClaimsProvider : Type := {
  provider_ref : ref
}.

Record Authorizer : Type := {
  authorizer_ref : ref;
  authorizer_claimsCache : ref;
  authorizer_authenticator : Authenticator;
  authorizer_customClaimsProvider : SampleCustomClaimsProvider
}.

Record JsonFileReader : Type := {
  reader_ref : ref
}.

Record CompanyRepository : Type := {
  repository_ref : ref;
  repository_reader : JsonFileReader
}.

Record CompanyService : Type := {
  service_ref : ref;
  service_repository : CompanyRepository;
  service_claims : option ClaimsPrincipal
}.

(** An Express request: the route parameters and the headers. *)
Record Request : Type := {
  params : gmap string Js.code_units;
  headers : gmap string string
}.

(** An Express response, as far as the router touches it:
    [response.locals.claims], [None] while undefined. *)
Record Response : Type := {
  locals_claims : option ClaimsPrincipal
}.

Definition new_response : Response := {| locals_claims := None |}.

(** The state of the two long-lived collaborators, by reference, and the
    identity provider they talk to. *)
Record Store : Type := {
  caches : gmap ref ClaimsCache.t;
  metas : gmap ref IssuerMetadata.t;
  net : IssuerMetadata.Net
}.

(** What a router method does that is visible from outside: the objects
    it constructs and the calls it makes to code that is not its own.
    [Next] records [response] as the downstream handler finds it. *)
Inductive Event : Type :=
| New (c : Class) (r : ref)
| Authorize (a : Authorizer) (request : Request)
| Next (response : Response)
| GetCompanyTransactions (s : CompanyService) (id : Js.number)
| WriteObjectResponse (status : Js.number) (body : Js.value).

Record World : Type := {
  next_ref : ref;
  events : list Event;
  store : Store;
  response : Response
}.

Definition initial_world (n : IssuerMetadata.Net) : World :=
  {| next_ref := 0%nat;
     events := [];
     store := {| caches := ∅; metas := ∅; net := n |};
     response := new_response |}.

(** Code that may throw and that acts on the world. *)
Definition M (A : Type) : Type := World → (exn + A) * World.

Definition ret {A} (a : A) : M A := fun w => (inr a, w).

Definition throw {A} (e : exn) : M A := fun w => (inl e, w).

Definition bind {A B} (m : M A) (f : A → M B) : M B :=
  fun w =>
    match m w with
    | (inr a, w') => f a w'
    | (inl e, w') => (inl e, w')
    end.

Notation "'do' x <- m ; k" := (bind m (fun x => k))
  (at level 10, x name, m at level 100, k at level 200).

Definition emit (e : Event) : M unit :=
  fun w =>
    (inr tt,
     {| next_ref := next_ref w;
        events := events w ++ [e];
        store := store w;
        response := response w |}).

(** [new C (...)]: a fresh reference. *)
Definition alloc (c : Class) : M ref :=
  fun w =>
    (inr (next_ref w),
     {| next_ref := S (next_ref w);
        events := events w ++ [New c (next_ref w)];
        store := store w;
        response := response w |}).

Definition with_store (w : World) (s : Store) : World :=
  {| next_ref := next_ref w;
     events := events w;
     store := s;
     response := response w |}.

(** Code of a collaborator: it sees the store only. *)
Definition on_store {A} (f : Store → (exn + A) * Store) : M A :=
  fun w => let '(r, s) := f (store w) in (r, with_store w s).

Definition get_response : M Response := fun w => (inr (response w), w).

Definition set_response (r : Response) : M unit :=
  fun w =>
    (inr tt,
     {| next_ref := next_ref w;
        events := events w;
        store := store w;
        response := r |}).

Definition new_ClaimsCache (oauth : OAuthConfiguration) : M ref :=
  do r <- alloc ClaimsCacheClass;
  do _ <- on_store (fun s =>
            (inr tt,
             {| caches := <[r := ClaimsCache.new oauth]> (caches s);
                metas := metas s;
                net := net s |}));
  ret r.

Definition new_IssuerMetadata (oauth : OAuthConfiguration) : M ref :=
  do r <- alloc IssuerMetadataClass;
  do _ <- on_store (fun s =>
            (inr tt,
             {| caches := caches s;
                metas := <[r := IssuerMetadata.new oauth]> (metas s);
                net := net s |}));
  ret r.

(** A method call through a reference that holds no such object. *)
Definition type_error : exn := Other Js.Undefined.

(** [await metadata.load ()] on the object behind [r]. *)
Definition IssuerMetadata_load (r : ref) : M unit :=
  on_store (fun s =>
    match metas s !! r with
    | Some m =>
        match IssuerMetadata.load m (net s) with
        | (inr m', n') =>
            (inr tt, {| caches := caches s; metas := <[r := m']> (metas s); net := n' |})
        | (inl f, n') =>
            (inl (Classified f), {| caches := caches s; metas := metas s; net := n' |})
        end
    | None => (inl type_error, s)
    end).

(** [metadata.issuer] on the object behind [r]. *)
Definition IssuerMetadata_issuer (r : ref) : M (option IssuerConfig) :=
  on_store (fun s =>
    match metas s !! r with
    | Some m => (inr (IssuerMetadata.config m), s)
    | None => (inl type_error, s)
    end).

(** ** The router *)

Module Router.

Record t : Type := {
  _apiConfig : Configuration;
  _claimsCache : ref;
  _issuerMetadata : ref
}.

(** [new Router (apiConfig)]; binding the callbacks changes nothing that
    is modelled. *)
Definition constructor (apiConfig : Configuration) : M t :=
  do cache <- new_ClaimsCache (oauth apiConfig);
  do metadata <- new_IssuerMetadata (oauth apiConfig);
  ret {| _apiConfig := apiConfig;
         _claimsCache := cache;
         _issuerMetadata := metadata |}.

(** Load metadata once at application startup. *)
Definition initialize (this : t) : M unit :=
  IssuerMetadata_load (_issuerMetadata this).

Section Collaborators.

(** The authorizer and the company service are not among the sources:
    what they return or throw is left open. The authorizer reaches the
    claims cache it was constructed with and the identity provider; the
    issuer metadata object itself is not handed to it. *)
Variable authorizeRequestAndGetClaims :
  Authorizer → Request → ClaimsCache.t → IssuerMetadata.Net →
  (exn + ClaimsPrincipal) * ClaimsCache.t * IssuerMetadata.Net.

Variable getCompanyTransactions_service :
  CompanyService → Js.number → exn + Js.value.

(** [await authorizer.authorizeRequestAndGetClaims (request)] *)
Definition Authorizer_authorizeRequestAndGetClaims (a : Authorizer)
    (request : Request) : M ClaimsPrincipal :=
  on_store (fun s =>
    match caches s !! authorizer_claimsCache a with
    | Some c =>
        let '(r, c', n') := authorizeRequestAndGetClaims a request c (net s) in
        (r, {| caches := <[authorizer_claimsCache a := c']> (caches s);
               metas := metas s;
               net := n' |})
    | None => (inl type_error, s)
    end).

(** The entry point for authorization and claims handling. *)
Definition authorizationHandler (this : t) (request : Request) : M unit :=
  do issuer <- IssuerMetadata_issuer (_issuerMetadata this);
  do a <- alloc AuthenticatorClass;
  let authenticator :=
    {| authenticator_ref := a;
       authenticator_oauth := oauth (_apiConfig this);
       authenticator_issuer := issuer |} in
  do p <- alloc SampleCustomClaimsProviderClass;
  let customClaimsProvider := {| provider_ref := p |} in
  do z <- alloc AuthorizerClass;
  let authorizer :=
    {| authorizer_ref := z;
       authorizer_claimsCache := _claimsCache this;
       authorizer_authenticator := authenticator;
       authorizer_customClaimsProvider := customClaimsProvider |} in
  do _ <- emit (Authorize authorizer request);
  do claims <- Authorizer_authorizeRequestAndGetClaims authorizer request;
  do _ <- set_response {| locals_claims := Some claims |};
  do response <- get_response;
  emit (Next response).

(** [request.params.id] as [parseInt] reads it: a missing parameter is
    [undefined], which converts to the string "undefined". *)
Definition params_id (request : Request) : Js.code_units :=
  match params request !! "id" with
  | Some s => s
  | None => Js.units "undefined"
  end.

(** Return company transactions. *)
Definition getCompanyTransactions (this : t) (request : Request) : M unit :=
  do response <- get_response;
  do r <- alloc JsonFileReaderClass;
  let reader := {| reader_ref := r |} in
  do c <- alloc CompanyRepositoryClass;
  let repository := {| repository_ref := c; repository_reader := reader |} in
  do s <- alloc CompanyServiceClass;
  let service :=
    {| service_ref := s;
       service_repository := repository;
       service_claims := locals_claims response |} in
  let id := Js.parseInt (params_id request) 10 in
  if Js.isNaN id || Js.le id (Js.of_Z 0) then
    throw (ClientErr (ClientError.new (Js.of_Z 400) ErrorCodes.invalidCompanyId
                        "The company id must be a positive numeric integer"))
  else
    do _ <- emit (GetCompanyTransactions service id);
    do result <- on_store (fun s => (getCompanyTransactions_service service id, s));
    emit (WriteObjectResponse (Js.of_Z 200) result).

(** One request through the authorization handler, with its own response
    object. A thrown error goes to the exception handler and is not the
    router's state. *)
Definition handle (this : t) (request : Request) (w : World) : World :=
  snd (bind (set_response new_response)
            (fun _ => authorizationHandler this request) w).

Definition serve (this : t) (requests : list Request) (w : World) : World :=
  fold_left (fun w request => handle this request w) requests w.

End Collaborators.

End Router.

(** The references of the objects of class [c] constructed so far. *)
Definition constructed (c : Class) (evs : list Event) : list ref :=
  omap (fun e => match e with
                 | New c' r => if decide (c' = c) then Some r else None
                 | _ => None
                 end) evs.

Definition all_constructed (evs : list Event) : list ref :=
  omap (fun e => match e with New _ r => Some r | _ => None end) evs.

Definition authorizers (evs : list Event) : list Authorizer :=
  omap (fun e => match e with Authorize a _ => Some a | _ => None end) evs.

Definition next_calls (evs : list Event) : list Response :=
  omap (fun e => match e with Next r => Some r | _ => None end) evs.

Definition service_calls (evs : list Event) : list (CompanyService * Js.number) :=
  omap (fun e => match e with
                 | GetCompanyTransactions s id => Some (s, id)
                 | _ => None
                 end) evs.

(** What holds of the world of a running router between two requests:
    its two collaborators are there, and the references handed out so far
    are distinct and below the next one. *)
Definition serving (this : Router.t) (md : IssuerMetadata.t) (w : World) : Prop :=
  metas (store w) !! Router._issuerMetadata this = Some md
  ∧ is_Some (caches (store w) !! Router._claimsCache this)
  ∧ Forall (fun r => r < next_ref w)%nat (all_constructed (events w))
  ∧ NoDup (all_constructed (events w)).

(** An authorizer whose constructor arguments come from the router's own
    fields: its claims cache, its configuration, and the issuer of its
    metadata object. *)
Definition built_from (this : Router.t) (md : IssuerMetadata.t) (a : Authorizer) : Prop :=
  authorizer_claimsCache a = Router._claimsCache this
  ∧ authenticator_oauth (authorizer_authenticator a) = oauth (Router._apiConfig this)
  ∧ authenticator_issuer (authorizer_authenticator a) = IssuerMetadata.config md.

(** The references of the three objects behind an authorizer. *)
Definition authorizer_refs (a : Authorizer) : list ref :=
  [authenticator_ref (authorizer_authenticator a);
   provider_ref (authorizer_customClaimsProvider a);
   authorizer_ref a].

(** ** Sample data *)

Definition sample_oauth : OAuthConfiguration :=
  {| issuerUrl := "https://login.example.com"; expectedAudience := "api" |}.

Definition sample_config : Configuration := {| oauth := sample_oauth |}.

Definition sample_key (kid : string) : SigningKey :=
  {| keyId := kid; publicKey := "n"; algorithm := "RS256" |}.

Definition sample_net : IssuerMetadata.Net :=
  {| IssuerMetadata.discovery_doc :=
       Some ({| issuer := "https://login.example.com";
                jwksUri := "https://login.example.com/keys";
                requiredAudience := "api" |}, [sample_key "k1"]);
     IssuerMetadata.jwks_doc := Some [sample_key "k1"; sample_key "k2"];
     IssuerMetadata.fetched := [] |}.

Definition sample_principal (exp : timestamp) : ClaimsPrincipal :=
  {| base := {| subject := "user1"; scopes := {["openid"]}; expiry := exp;
                claims_issuer := "https://login.example.com"; audience := "api" |};
     custom := {| resources := {["company1"]} |} |}.

(** Issuer metadata before any load. *)
Definition unloaded : IssuerMetadata.t := IssuerMetadata.new sample_oauth.

Definition sample_router : Router.t :=
  {| Router._apiConfig := sample_config;
     Router._claimsCache := 0%nat;
     Router._issuerMetadata := 1%nat |}.

(** The world right after [new Router (sample_config)]. *)
Definition sample_world : World :=
  snd (Router.constructor sample_config (initial_world sample_net)).

(** Three callers present the token with key [h1] before its computation
    ends; a caller with another token comes and fails in between. *)
Definition sample_burst : list ClaimsCache.Input :=
  [ClaimsCache.Call 1%nat "h1" 10;
   ClaimsCache.Call 7%nat "h2" 10;
   ClaimsCache.Call 2%nat "h1" 11;
   ClaimsCache.Settle "h2" (inl (Classified InvalidToken));
   ClaimsCache.Call 3%nat "h1" 12;
   ClaimsCache.Settle "h1" (inr (sample_principal 100))].

Definition sample_request : Request :=
  {| params := {["id" := Js.units "2"]};
     headers := {["authorization" := "Bearer abc"]} |}.

(** ** Histories of a client error *)

(** The arguments of the last [setExceptionDetails] call among [ops]. *)
Fixpoint last_details (ops : list ClientError.Mutation)
  : option (string * Js.number * string) :=
  match ops with
  | [] => None
  | op :: ops' =>
      match last_details ops' with
      | Some d => Some d
      | None =>
          match op with
          | ClientError.SetExceptionDetails area id utcTime => Some (area, id, utcTime)
          | ClientError.SetLogContext _ => None
          end
      end
  end.

(** The value last assigned to [LogContext] among [ops], if any. *)
Fixpoint last_assigned_context (ops : list ClientError.Mutation) : option Js.value :=
  match ops with
  | [] => None
  | op :: ops' =>
      match last_assigned_context ops' with
      | Some v => Some v
      | None =>
          match op with
          | ClientError.SetLogContext v => Some v
          | ClientError.SetExceptionDetails _ _ _ => None
          end
      end
  end.

(** The log context after [ops]; the constructor leaves [null]. *)
Definition last_context (ops : list ClientError.Mutation) : Js.value :=
  default Js.Null (last_assigned_context ops).

(** ** Further handlers of the router *)

Module RouterLists.

Section Collaborators.

(** [CompanyService.getCompanyList] is not among the sources: what it
    returns or throws is left open. *)
Variable getCompanyList_service : CompanyService → exn + Js.value.

(** Return a list of companies. *)
Definition getCompanyList (this : Router.t) (request : Request) : M unit :=
  do response <- get_response;
  do r <- alloc JsonFileReaderClass;
  let reader := {| reader_ref := r |} in
  do c <- alloc CompanyRepositoryClass;
  let repository := {| repository_ref := c; repository_reader := reader |} in
  do s <- alloc CompanyServiceClass;
  let service :=
    {| service_ref := s;
       service_repository := repository;
       service_claims := locals_claims response |} in
  do result <- on_store (fun st => (getCompanyList_service service, st));
  emit (WriteObjectResponse (Js.of_Z 200) result).

End Collaborators.

End RouterLists.

(** The objects constructed so far, each with its class and reference. *)
Definition constructions (evs : list Event) : list (Class * ref) :=
  omap (fun e => match e with New c r => Some (c, r) | _ => None end) evs.

(** The responses written so far, each with its status and body. *)
Definition responses (evs : list Event) : list (Js.number * Js.value) :=
  omap (fun e => match e with
                 | WriteObjectResponse status body => Some (status, body)
                 | _ => None
                 end) evs.

(** The company services constructed so far are not recorded as such; the
    ones that were called are, with the claims they were built with. *)
Definition served_claims (evs : list Event) : list (option ClaimsPrincipal) :=
  map (fun si => service_claims (fst si)) (service_calls evs).

(** The company service a handler constructs in world [w]: the third of
    three objects made in a row, holding the claims of the response. *)
Definition company_service_in (w : World) : CompanyService :=
  {| service_ref := S (S (next_ref w));
     service_repository :=
       {| repository_ref := S (next_ref w);
          repository_reader := {| reader_ref := next_ref w |} |};
     service_claims := locals_claims (response w) |}.

(** The world once that service is constructed, with [evs] after it. *)
Definition with_company_service (w : World) (evs : list Event) : World :=
  {| next_ref := S (S (S (next_ref w)));
     events := events w ++
               [New JsonFileReaderClass (next_ref w);
                New CompanyRepositoryClass (S (next_ref w));
                New CompanyServiceClass (S (S (next_ref w)))] ++ evs;
     store := store w;
     response := response w |}.

Definition invalid_company_id_error : exn :=
  ClientErr (ClientError.new (Js.of_Z 400) ErrorCodes.invalidCompanyId
               "The company id must be a positive numeric integer").

(** A request for the transactions of the company named [id]. *)
Definition transactions_request (id : Js.code_units) : Request :=
  {| params := {["id" := id]}; headers := ∅ |}.

(** The authorization handler followed by a controller, as the routes
    chain them: the controller runs if the handler did not throw. *)
Definition authorized (authorization controller : M unit) : M unit :=
  do _ <- authorization; controller.

(** Whether a code unit is one of [0] to [9]. *)
Definition is_decimal_digit (c : N) : bool :=
  match Js.digit_value c with
  | Some d => d <? 10
  | None => false
  end.

(** The authorizer the authorization handler constructs in world [w],
    when the router's metadata object is [m]. *)
Definition authorizer_in (this : Router.t) (m : IssuerMetadata.t) (w : World) : Authorizer :=
  {| authorizer_ref := S (S (next_ref w));
     authorizer_claimsCache := Router._claimsCache this;
     authorizer_authenticator :=
       {| authenticator_ref := next_ref w;
          authenticator_oauth := oauth (Router._apiConfig this);
          authenticator_issuer := IssuerMetadata.config m |};
     authorizer_customClaimsProvider := {| provider_ref := S (next_ref w) |} |}.

(** An authorizer that accepts every request as the sample user. *)
Definition sample_authorize (_ : Authorizer) (_ : Request)
    (c : ClaimsCache.t) (n : IssuerMetadata.Net)
  : (exn + ClaimsPrincipal) * ClaimsCache.t * IssuerMetadata.Net :=
  (inr (sample_principal 100), c, n).

(** ** The single-page application

    The [App] class of [spa/src/app/app.ts]. Its views, router, OAuth
    wrapper and configuration loader are not among the sources: every
    call to them is a [Call], whose outcome the browser decides. An async
    method is followed from its start to its end; what another callback
    would do if it ran at one of its [await]s is not modelled. *)

Module App.

(** The calls the application class makes to classes that are not among
    the sources: constructors, view and OAuth operations, and the two
    error reporters. *)
Inductive Call : Type :=
| New_TitleView
| TitleView_load
| New_HeaderButtonsView
| HeaderButtonsView_load
| New_ErrorView
| ErrorView_load
| New_TraceView
| TraceView_load
| ConfigurationLoader_download (path : string)
| New_Authenticator
| New_TraceListener
| New_ApiClient
| New_Router
| Authenticator_handleLoginResponse
| HeaderButtonsView_disableSessionButtons
| HeaderButtonsView_enableSessionButtons
| Router_loadView
| TitleView_loadUserInfo
| TraceListener_updateLogLevelIfRequired
| ErrorView_report (e : exn)
| Authenticator_startLogout
| ErrorConsoleReporter_output (e : exn)
| Authenticator_expireAccessToken
| Authenticator_expireRefreshToken.

(** An object of one of those classes; the application only ever tests
    whether a field holds one. *)
Definition object : Type := unit.

(** The optional fields, the global objects and the child views. *)
Inductive Field : Type :=
| F_configuration
| F_authenticator
| F_apiClient
| F_router
| F_traceListener
| F_titleView
| F_headerButtonsView
| F_errorView
| F_traceView.

(** The state flags. *)
Inductive Flag : Type :=
| IsInitialised
| MainViewLoaded
| UserInfoLoaded.

Record t : Type := mk {
  _configuration : option object;
  _authenticator : option object;
  _apiClient : option object;
  _router : option object;
  _traceListener : option object;
  _titleView : option object;
  _headerButtonsView : option object;
  _errorView : option object;
  _traceView : option object;
  _isInitialised : bool;
  _mainViewLoaded : bool;
  _userInfoLoaded : bool
}.

(** [new App ()]: no object yet, every flag false. (The constructor also
    publishes jQuery on [window] and binds the callbacks, which changes
    nothing that is modelled.) *)
Definition new : t :=
  {| _configuration := None; _authenticator := None; _apiClient := None;
     _router := None; _traceListener := None; _titleView := None;
     _headerButtonsView := None; _errorView := None; _traceView := None;
     _isInitialised := false; _mainViewLoaded := false; _userInfoLoaded := false |}.

Definition field (f : Field) (a : t) : option object :=
  match f with
  | F_configuration => _configuration a
  | F_authenticator => _authenticator a
  | F_apiClient => _apiClient a
  | F_router => _router a
  | F_traceListener => _traceListener a
  | F_titleView => _titleView a
  | F_headerButtonsView => _headerButtonsView a
  | F_errorView => _errorView a
  | F_traceView => _traceView a
  end.

Definition set_field (f : Field) (o : option object) (a : t) : t :=
  {| _configuration := match f with F_configuration => o | _ => _configuration a end;
     _authenticator := match f with F_authenticator => o | _ => _authenticator a end;
     _apiClient := match f with F_apiClient => o | _ => _apiClient a end;
     _router := match f with F_router => o | _ => _router a end;
     _traceListener := match f with F_traceListener => o | _ => _traceListener a end;
     _titleView := match f with F_titleView => o | _ => _titleView a end;
     _headerButtonsView :=
       match f with F_headerButtonsView => o | _ => _headerButtonsView a end;
     _errorView := match f with F_errorView => o | _ => _errorView a end;
     _traceView := match f with F_traceView => o | _ => _traceView a end;
     _isInitialised := _isInitialised a;
     _mainViewLoaded := _mainViewLoaded a;
     _userInfoLoaded := _userInfoLoaded a |}.

Definition flag (f : Flag) (a : t) : bool :=
  match f with
  | IsInitialised => _isInitialised a
  | MainViewLoaded => _mainViewLoaded a
  | UserInfoLoaded => _userInfoLoaded a
  end.

Definition set_flag (f : Flag) (b : bool) (a : t) : t :=
  {| _configuration := _configuration a;
     _authenticator := _authenticator a;
     _apiClient := _apiClient a;
     _router := _router a;
     _traceListener := _traceListener a;
     _titleView := _titleView a;
     _headerButtonsView := _headerButtonsView a;
     _errorView := _errorView a;
     _traceView := _traceView a;
     _isInitialised := match f with IsInitialised => b | _ => _isInitialised a end;
     _mainViewLoaded := match f with MainViewLoaded => b | _ => _mainViewLoaded a end;
     _userInfoLoaded := match f with UserInfoLoaded => b | _ => _userInfoLoaded a end |}.

(** What [location.hash] reads after [location.hash = v]: the fragment
    without its leading [#], then [#] and the fragment again unless it is
    empty. (Percent-encoding is not modelled; the application assigns two
    literals.) *)
Definition assigned_hash (v : string) : string :=
  let number_sign := Ascii.ascii_of_nat 35 in
  let fragment :=
    match v with
    | String c r => if Ascii.eqb c number_sign then r else v
    | EmptyString => v
    end in
  match fragment with
  | EmptyString => EmptyString
  | _ => String number_sign fragment
  end.

Section Browser.

(** Everything outside the application object that its collaborators may
    read or change, [location.hash] apart. *)
Variable X : Type.

(** What a call to a collaborator does: it returns or throws, and it may
    change the hash and the rest of the page. *)
Variable env : Call → string → X → (exn + unit) * string * X.

Record Page : Type := {
  app : t;
  location_hash : string;
  onhashchange : bool;
  calls : list Call;
  outside : X
}.

(** The page the application is constructed in. *)
Definition new_page (hash : string) (x : X) : Page :=
  {| app := new; location_hash := hash; onhashchange := false;
     calls := []; outside := x |}.

Definition ST (A : Type) : Type := Page → (exn + A) * Page.

Definition pure {A} (a : A) : ST A := fun s => (inr a, s).

Definition raise {A} (e : exn) : ST A := fun s => (inl e, s).

Definition and_then {A B} (m : ST A) (f : A → ST B) : ST B :=
  fun s =>
    match m s with
    | (inr a, s') => f a s'
    | (inl e, s') => (inl e, s')
    end.

Notation "'perform' x <- m ; k" := (and_then m (fun x => k))
  (at level 10, x name, m at level 100, k at level 200).

(** [try { body } catch (e) { handler }] *)
Definition try_catch (body : ST unit) (handler : exn → ST unit) : ST unit :=
  fun s =>
    match body s with
    | (inr a, s') => (inr a, s')
    | (inl e, s') => handler e s'
    end.

Definition get_app : ST t := fun s => (inr (app s), s).

Definition get_hash : ST string := fun s => (inr (location_hash s), s).

Definition update (f : t → t) : ST unit :=
  fun s =>
    (inr tt,
     {| app := f (app s); location_hash := location_hash s;
        onhashchange := onhashchange s; calls := calls s; outside := outside s |}).

(** [location.hash = v] *)
Definition assign_hash (v : string) : ST unit :=
  fun s =>
    (inr tt,
     {| app := app s; location_hash := assigned_hash v;
        onhashchange := onhashchange s; calls := calls s; outside := outside s |}).

(** [window.onhashchange = this._onHashChange] *)
Definition listen_for_hash_changes : ST unit :=
  fun s =>
    (inr tt,
     {| app := app s; location_hash := location_hash s;
        onhashchange := true; calls := calls s; outside := outside s |}).

(** A call to a collaborator: it is made, then it returns or throws. *)
Definition call (c : Call) : ST unit :=
  fun s =>
    let '(r, h, x) := env c (location_hash s) (outside s) in
    (r, {| app := app s; location_hash := h; onhashchange := onhashchange s;
           calls := calls s ++ [c]; outside := x |}).

(** [this.f!.m ()]: a method call on a field; on [undefined] it is a
    [TypeError]. *)
Definition via (f : Field) (c : Call) : ST unit :=
  fun s =>
    match field f (app s) with
    | Some _ => call c s
    | None => (inl type_error, s)
    end.

(** [this.f = new C (...)] *)
Definition construct (f : Field) (c : Call) : ST unit :=
  perform _ <- call c;
  update (set_field f (Some tt)).

(** Render views in their initial state. *)
Definition _initialRender : ST unit :=
  perform _ <- construct F_titleView New_TitleView;
  perform _ <- via F_titleView TitleView_load;
  perform _ <- construct F_headerButtonsView New_HeaderButtonsView;
  perform _ <- via F_headerButtonsView HeaderButtonsView_load;
  perform _ <- construct F_errorView New_ErrorView;
  perform _ <- via F_errorView ErrorView_load;
  perform _ <- construct F_traceView New_TraceView;
  via F_traceView TraceView_load.

(** Initialise the app. *)
Definition _initialiseApp : ST unit :=
  perform _ <- construct F_configuration (ConfigurationLoader_download "spa.config.json");
  perform _ <- construct F_authenticator New_Authenticator;
  perform _ <- construct F_traceListener New_TraceListener;
  perform _ <- construct F_apiClient New_ApiClient;
  perform _ <- construct F_router New_Router;
  update (set_flag IsInitialised true).

(** Handle login responses on page load. *)
Definition _handleLoginResponse : ST unit :=
  via F_authenticator Authenticator_handleLoginResponse.

(** Load API data for the main view and update UI controls. *)
Definition _loadMainView : ST unit :=
  try_catch
    (perform _ <- via F_headerButtonsView HeaderButtonsView_disableSessionButtons;
     perform _ <- via F_router Router_loadView;
     perform a <- get_app;
     perform _ <- (if _userInfoLoaded a
                   then via F_headerButtonsView HeaderButtonsView_enableSessionButtons
                   else pure tt);
     update (set_flag MainViewLoaded true))
    (fun e =>
       perform _ <- update (set_flag MainViewLoaded false);
       raise e).

(** Load API data for the user info fragment. *)
Definition _loadUserInfo : ST unit :=
  try_catch
    (perform _ <- via F_headerButtonsView HeaderButtonsView_disableSessionButtons;
     perform _ <- via F_titleView TitleView_loadUserInfo;
     perform a <- get_app;
     perform _ <- (if _mainViewLoaded a
                   then via F_headerButtonsView HeaderButtonsView_enableSessionButtons
                   else pure tt);
     update (set_flag UserInfoLoaded true))
    (fun e =>
       perform _ <- update (set_flag UserInfoLoaded false);
       raise e).

(** [location.hash.indexOf ('loggedout') === -1] *)
Definition not_logged_out (hash : string) : bool :=
  match String.index 0 "loggedout" hash with
  | None => true
  | Some _ => false
  end.

(** The entry point for the SPA. The catch uses [this._errorView?.report],
    which does nothing while the error view is undefined. *)
Definition execute : ST unit :=
  try_catch
    (perform _ <- listen_for_hash_changes;
     perform _ <- _initialRender;
     perform _ <- _initialiseApp;
     perform _ <- _handleLoginResponse;
     perform _ <- _loadMainView;
     perform hash <- get_hash;
     if not_logged_out hash then _loadUserInfo else pure tt)
    (fun e =>
       perform a <- get_app;
       match _errorView a with
       | Some _ => call (ErrorView_report e)
       | None => pure tt
       end).

(** Change the view based on the hash URL and catch errors. *)
Definition _onHashChange : ST unit :=
  perform _ <- via F_traceListener TraceListener_updateLogLevelIfRequired;
  try_catch
    (perform a <- get_app;
     if _isInitialised a then _loadMainView else pure tt)
    (fun e => via F_errorView (ErrorView_report e)).

(** The home button moves to the home view but also deals with error
    recovery. *)
Definition _onHome : ST unit :=
  try_catch
    (perform a <- get_app;
     perform _ <- (if negb (_isInitialised a) then _initialiseApp else pure tt);
     perform a <- get_app;
     if _isInitialised a then
       perform _ <- assign_hash "#";
       perform a <- get_app;
       perform _ <- (if negb (_mainViewLoaded a) then _loadMainView else pure tt);
       perform a <- get_app;
       if negb (_userInfoLoaded a) then _loadUserInfo else pure tt
     else pure tt)
    (fun e => via F_errorView (ErrorView_report e)).

(** Try to reload data when requested via the button click. *)
Definition _onReloadData : ST unit :=
  try_catch
    (perform _ <- _loadMainView;
     _loadUserInfo)
    (fun e => via F_errorView (ErrorView_report e)).

(** Start a logout request. *)
Definition _onLogout : ST unit :=
  try_catch
    (via F_authenticator Authenticator_startLogout)
    (fun e =>
       perform _ <- call (ErrorConsoleReporter_output e);
       assign_hash "#/loggedout").

(** Force the access token to return 401. *)
Definition _onExpireAccessToken : ST unit :=
  via F_authenticator Authenticator_expireAccessToken.

(** Force the refresh token to return 401. *)
Definition _onExpireRefreshToken : ST unit :=
  via F_authenticator Authenticator_expireRefreshToken.

(** The callbacks the browser and the header buttons invoke. *)
Inductive Callback : Type :=
| OnHashChange
| OnHome
| OnReloadData
| OnExpireAccessToken
| OnExpireRefreshToken
| OnLogout.

Definition callback (c : Callback) : ST unit :=
  match c with
  | OnHashChange => _onHashChange
  | OnHome => _onHome
  | OnReloadData => _onReloadData
  | OnExpireAccessToken => _onExpireAccessToken
  | OnExpireRefreshToken => _onExpireRefreshToken
  | OnLogout => _onLogout
  end.

(** Callbacks run one after the other, each to its end; a rejected one
    leaves the page as it is at that point. *)
Definition run_callbacks (cs : list Callback) (s : Page) : Page :=
  fold_left (fun s c => snd (callback c s)) cs s.

(** A call that returns whenever it is made. *)
Definition never_throws (c : Call) : Prop :=
  ∀ h x, fst (fst (env c h x)) = inr tt.

(** No collaborator navigates: calls leave [location.hash] as it is. *)
Definition no_navigation : Prop :=
  ∀ c h x, snd (fst (env c h x)) = h.

(** Code that leaves [location.hash] as it found it. *)
Definition keeps_hash {A} (m : ST A) : Prop :=
  ∀ s, location_hash (snd (m s)) = location_hash s.

End Browser.

Arguments app {X} _.
Arguments location_hash {X} _.
Arguments onhashchange {X} _.
Arguments calls {X} _.
Arguments outside {X} _.
Arguments new_page {X} _ _.
Arguments _initialRender {X} _ _.
Arguments _initialiseApp {X} _ _.
Arguments _handleLoginResponse {X} _ _.
Arguments _loadMainView {X} _ _.
Arguments _loadUserInfo {X} _ _.
Arguments execute {X} _ _.
Arguments _onHashChange {X} _ _.
Arguments _onHome {X} _ _.
Arguments _onReloadData {X} _ _.
Arguments _onLogout {X} _ _.
Arguments _onExpireAccessToken {X} _ _.
Arguments _onExpireRefreshToken {X} _ _.
Arguments callback {X} _ _ _.
Arguments run_callbacks {X} _ _ _.
Arguments never_throws {X} _ _.
Arguments no_navigation {X} _.
Arguments keeps_hash {X A} _.

(** The errors shown in the error view. *)
Definition reports (cs : list Call) : list exn :=
  omap (fun c => match c with ErrorView_report e => Some e | _ => None end) cs.

(** The errors written to the console. *)
Definition console (cs : list Call) : list exn :=
  omap (fun c => match c with ErrorConsoleReporter_output e => Some e | _ => None end) cs.

Definition button (c : Call) : option bool :=
  match c with
  | HeaderButtonsView_enableSessionButtons => Some true
  | HeaderButtonsView_disableSessionButtons => Some false
  | _ => None
  end.

(** Whether the last call made to the session buttons enabled them. *)
Definition sessions_enabled (cs : list Call) : bool :=
  default false (last (omap button cs)).

Definition is_api_call (c : Call) : bool :=
  match c with
  | Router_loadView | TitleView_loadUserInfo => true
  | _ => false
  end.

(** The loads of API data made: the main view and the user info. *)
Definition api_calls (cs : list Call) : list Call := List.filter is_api_call cs.

Definition ok {A} (r : exn + A) : bool :=
  match r with inr _ => true | inl _ => false end.

(** A browser in which every call returns and nothing navigates. *)
Definition calm (c : Call) (hash : string) (x : unit) : (exn + unit) * string * unit :=
  (inr tt, hash, x).

(** The same, except that the API cannot be reached: loading the main
    view throws. *)
Definition offline (c : Call) (hash : string) (x : unit) : (exn + unit) * string * unit :=
  match c with
  | Router_loadView => (inl (Classified ServerError), hash, x)
  | _ => (inr tt, hash, x)
  end.

(** A browser in which the configuration cannot be downloaded. *)
Definition no_config (c : Call) (hash : string) (x : unit) : (exn + unit) * string * unit :=
  match c with
  | ConfigurationLoader_download _ => (inl (Other (Js.Str "download failed")), hash, x)
  | _ => (inr tt, hash, x)
  end.



(** The page the application is constructed in, on the home view. *)
Definition blank : Page unit := new_page EmptyString tt.

(** The same, on the logged-out view. *)
Definition logged_out : Page unit := new_page "#/loggedout" tt.

(** The page after [execute] in the calm browser. *)
Definition started : Page unit := snd (execute calm blank).

(** That page after a reload attempted while the API cannot be reached. *)
Definition failed_reload : Page unit := snd (_onReloadData offline started).

Definition sample_callbacks : list Callback :=
  [OnReloadData; OnHashChange; OnLogout; OnHome].

(** The session buttons follow the two load flags. *)
Definition buttons_follow_flags {X} (s : Page X) : Prop :=
  is_Some (_headerButtonsView (app s))
  ∧ sessions_enabled (calls s)
    = _mainViewLoaded (app s) && _userInfoLoaded (app s).

End App.

Example parseInt_3_5 : Js.parseInt (Js.units "3.5") 10 = Js.of_Z 3.
Proof. reflexivity. Qed.

Example parseInt_abc : Js.parseInt (Js.units "abc") 10 = Js.NaN.
Proof. reflexivity. Qed.

Example parseInt_neg : Js.parseInt (Js.units "  -42px") 10 = Js.of_Z (-42).
Proof. reflexivity. Qed.

Example parseInt_hex : Js.parseInt (Js.units "0x1f") 16 = Js.of_Z 31.
Proof. reflexivity. Qed.

Example parseInt_0x_radix10 : Js.parseInt (Js.units "0x1f") 10 = Js.of_Z 0.
Proof. reflexivity. Qed.

Example toResponseFormat_plain :
  ClientError.toResponseFormat (ClientError.new (Js.of_Z 401) "unauthorized" "m")
  = [("code", Js.Str "unauthorized"); ("message", Js.Str "m")].
Proof. reflexivity. Qed.

Example toResponseFormat_details :
  ClientError.toResponseFormat
    (ClientError.setExceptionDetails "API" (Js.of_Z 7) "t"
       (ClientError.new (Js.of_Z 500) "server_error" "m"))
  = [("code", Js.Str "server_error"); ("message", Js.Str "m");
     ("id", Js.Num (Js.of_Z 7)); ("area", Js.Str "API");
     ("utcTime", Js.Str "t")].
Proof. reflexivity. Qed.

(** ** Properties of the client error *)

Section ClientErrorFacts.

Import ClientError.

Lemma has_details_iff (this : t) :
  has_details this = true ↔
  Js.gt (_id this) (Js.of_Z 0) = true ∧ _area this ≠ "" ∧ _utcTime this ≠ "".
Proof.
  unfold has_details.
  rewrite !andb_true_iff, !Z.ltb_lt.
  split.
  - intros [[Hid Ha] Hu]. repeat split; [done | |].
    + intros E. rewrite E in Ha. simpl in Ha. lia.
    + intros E. rewrite E in Hu. simpl in Hu. lia.
  - intros (Hid & Ha & Hu). repeat split; [done | |].
    + destruct (_area this); [done | simpl; lia].
    + destruct (_utcTime this); [done | simpl; lia].
Qed.

(** C5, as amended. The body is [{code, message}], followed by
    [{id, area, utcTime}] exactly when the detail fields the error holds
    now have [id > 0], a non-empty area and a non-empty time; the status
    code plays no part. [setExceptionDetails] installs its arguments as
    those fields, the constructor leaves them empty, and setting the log
    context keeps them. *)
Theorem toResponseFormat_details_iff_fields_set (this : t) :
  toResponseFormat this =
    (if has_details this
     then [("code", Js.Str (_errorCode this)); ("message", Js.Str (message this));
           ("id", Js.Num (_id this)); ("area", Js.Str (_area this));
           ("utcTime", Js.Str (_utcTime this))]
     else [("code", Js.Str (_errorCode this)); ("message", Js.Str (message this))])
  ∧ (∀ area id utcTime,
        has_details (setExceptionDetails area id utcTime this) = true ↔
        Js.gt id (Js.of_Z 0) = true ∧ area ≠ "" ∧ utcTime ≠ "")
  ∧ (∀ value, has_details (set_LogContext value this) = has_details this)
  ∧ (∀ statusCode errorCode msg,
        toResponseFormat (new statusCode errorCode msg) =
        [("code", Js.Str errorCode); ("message", Js.Str msg)])
  ∧ (∀ statusCode,
        toResponseFormat
          {| _statusCode := statusCode; _errorCode := _errorCode this;
             message := message this; _logContext := _logContext this;
             _area := _area this; _id := _id this; _utcTime := _utcTime this |}
        = toResponseFormat this).
Proof.
  split; [| split; [| split; [| split]]].
  - unfold toResponseFormat. destruct (has_details this); reflexivity.
  - intros area id utcTime. apply has_details_iff.
  - reflexivity.
  - reflexivity.
  - reflexivity.
Qed.

(** C5, as stated, fails: a 500 error on which [setExceptionDetails] was
    not called is serialized as [{code, message}] only, so not every
    500-class error carries [{id, area, utcTime}]. *)
Lemma server_error_without_details :
  ¬ (∀ e : t,
       is_status_class 5 e = true →
       Js.has_key "id" (toResponseFormat e) = true
       ∧ Js.has_key "area" (toResponseFormat e) = true
       ∧ Js.has_key "utcTime" (toResponseFormat e) = true).
Proof.
  intros H.
  destruct (H (new (Js.of_Z 500) ErrorCodes.serverError "Problem encountered"))
    as [Hid _]; [reflexivity |].
  discriminate Hid.
Qed.

Example server_error_body :
  let e := new (Js.of_Z 500) ErrorCodes.serverError "Problem encountered" in
  is_status_class 5 e = true
  ∧ toResponseFormat e
    = [("code", Js.Str "server_error"); ("message", Js.Str "Problem encountered")].
Proof. split; reflexivity. Qed.

Lemma mutate_keeps_fields (this : t) (op : Mutation) :
  getStatusCode (mutate this op) = getStatusCode this
  ∧ _errorCode (mutate this op) = _errorCode this
  ∧ message (mutate this op) = message this.
Proof. destruct op; repeat split. Qed.

(** C10. The status code, the error code and the message are those given
    to the constructor, after any sequence of [setExceptionDetails] calls
    and [LogContext] assignments. *)
Theorem status_and_code_fixed_at_construction
    (statusCode : Js.number) (errorCode msg : string) (ops : list Mutation) :
  getStatusCode (new statusCode errorCode msg) = statusCode
  ∧ getStatusCode (mutate_all (new statusCode errorCode msg) ops) = statusCode
  ∧ _errorCode (mutate_all (new statusCode errorCode msg) ops) = errorCode
  ∧ message (mutate_all (new statusCode errorCode msg) ops) = msg.
Proof.
  split; [reflexivity |].
  unfold mutate_all.
  generalize (eq_refl : getStatusCode (new statusCode errorCode msg) = statusCode).
  generalize (eq_refl : _errorCode (new statusCode errorCode msg) = errorCode).
  generalize (eq_refl : message (new statusCode errorCode msg) = msg).
  generalize (new statusCode errorCode msg) as e.
  induction ops as [| op ops IH]; intros e Hm Hc Hs; simpl.
  - done.
  - destruct (mutate_keeps_fields e op) as (Es & Ec & Em).
    apply IH; congruence.
Qed.

End ClientErrorFacts.

(** ** Properties of the router *)

Section RouterFacts.

Import Router.

Lemma not_positive_iff (n : Js.number) :
  Js.isNaN n || Js.le n (Js.of_Z 0) = negb (Js.gt n (Js.of_Z 0)).
Proof. destruct n as [| q | []]; reflexivity. Qed.

Lemma service_calls_app (evs evs' : list Event) :
  service_calls (evs ++ evs') = service_calls evs ++ service_calls evs'.
Proof. apply omap_app. Qed.

Lemma next_calls_app (evs evs' : list Event) :
  next_calls (evs ++ evs') = next_calls evs ++ next_calls evs'.
Proof. apply omap_app. Qed.

Lemma authorizers_app (evs evs' : list Event) :
  authorizers (evs ++ evs') = authorizers evs ++ authorizers evs'.
Proof. apply omap_app. Qed.

Lemma constructed_app (c : Class) (evs evs' : list Event) :
  constructed c (evs ++ evs') = constructed c evs ++ constructed c evs'.
Proof. apply omap_app. Qed.

Lemma all_constructed_app (evs evs' : list Event) :
  all_constructed (evs ++ evs') = all_constructed evs ++ all_constructed evs'.
Proof. apply omap_app. Qed.

(** C9. With [id = parseInt (request.params.id, 10)], the double that
    [parseInt] returns: when [id] is [NaN] or at most 0 the handler throws
    the 400 [invalid_company_id] error, having made no call to the company
    service; otherwise [id] is positive, the service the handler has
    constructed is called once with it, and the outcome is the service's.
    In particular the id [3.5] is accepted and passed on as 3. *)
Theorem getCompanyTransactions_checks_id
    (svc : CompanyService → Js.number → exn + Js.value)
    (this : t) (request : Request) (w : World) :
  let id := Js.parseInt (params_id request) 10 in
  let out := getCompanyTransactions svc this request w in
  (if Js.isNaN id || Js.le id (Js.of_Z 0)
   then fst out =
          inl (ClientErr (ClientError.new (Js.of_Z 400) "invalid_company_id"
                            "The company id must be a positive numeric integer"))
        ∧ service_calls (events (snd out)) = service_calls (events w)
        ∧ store (snd out) = store w
   else Js.gt id (Js.of_Z 0) = true
        ∧ service_calls (events (snd out))
          = service_calls (events w) ++ [(company_service_in w, id)]
        ∧ fst out = match svc (company_service_in w) id with
                    | inl e => inl e
                    | inr _ => inr tt
                    end)
  ∧ (params request !! "id" = Some (Js.units "3.5") →
     id = Js.of_Z 3
     ∧ service_calls (events (snd out))
       = service_calls (events w) ++ [(company_service_in w, Js.of_Z 3)]).
Proof.
  intros id out.
  assert (Hmain :
    if Js.isNaN id || Js.le id (Js.of_Z 0)
    then fst out =
           inl (ClientErr (ClientError.new (Js.of_Z 400) "invalid_company_id"
                             "The company id must be a positive numeric integer"))
         ∧ service_calls (events (snd out)) = service_calls (events w)
         ∧ store (snd out) = store w
    else Js.gt id (Js.of_Z 0) = true
         ∧ service_calls (events (snd out))
           = service_calls (events w) ++ [(company_service_in w, id)]
         ∧ fst out = match svc (company_service_in w) id with
                     | inl e => inl e
                     | inr _ => inr tt
                     end).
  { subst out.
    pose proof (not_positive_iff id) as Hpos.
    unfold getCompanyTransactions, bind, get_response, alloc, on_store, emit, throw.
    cbn -[Js.parseInt Js.le Js.isNaN Js.gt ClientError.new].
    fold id. fold (company_service_in w).
    destruct (Js.isNaN id || Js.le id (Js.of_Z 0)) eqn:Hbad.
    - cbn. rewrite !service_calls_app. cbn. rewrite !app_nil_r.
      repeat split; reflexivity.
    - split; [by destruct (Js.gt id (Js.of_Z 0)) |].
      cbn. destruct (svc (company_service_in w) id) as [e | result]; cbn;
        rewrite !service_calls_app; cbn; rewrite ?app_nil_r; done. }
  split; [exact Hmain |].
  intros Hparam.
  assert (Hid : id = Js.of_Z 3).
  { subst id. unfold params_id. rewrite Hparam. reflexivity. }
  rewrite Hid in Hmain. split; [exact Hid |].
  by destruct Hmain as (_ & Hcalls & _).
Qed.

(** C6. [initialize] is the metadata load and nothing else: it makes the
    one fetch of the discovery document, constructs nothing, calls nothing
    else, and leaves the claims cache and the response alone. When the
    load succeeds the metadata object holds what was loaded; when it
    fails, [initialize] fails with the load's error, which is
    [MetadataLookupFailure] (status 500, code [metadata_lookup_failure]). *)
Theorem initialize_is_metadata_load (this : t) (w : World) (m : IssuerMetadata.t) :
  metas (store w) !! _issuerMetadata this = Some m →
  let out := initialize this w in
  events (snd out) = events w
  ∧ next_ref (snd out) = next_ref w
  ∧ response (snd out) = response w
  ∧ caches (store (snd out)) = caches (store w)
  ∧ IssuerMetadata.fetched (net (store (snd out))) =
      IssuerMetadata.fetched (net (store w)) ++ [IssuerMetadata.FetchDiscovery]
  ∧ match IssuerMetadata.load m (net (store w)) with
    | (inr m', _) =>
        fst out = inr tt
        ∧ metas (store (snd out)) = <[_issuerMetadata this := m']> (metas (store w))
    | (inl f, _) =>
        fst out = inl (Classified f)
        ∧ f = MetadataLookupFailure
        ∧ failure_status f = 500
        ∧ failure_code f = Some "metadata_lookup_failure"
        ∧ metas (store (snd out)) = metas (store w)
    end
  ∧ (IssuerMetadata.discovery_doc (net (store w)) = None →
     fst out = inl (Classified MetadataLookupFailure)).
Proof.
  intros Hm out. subst out.
  unfold initialize, IssuerMetadata_load, on_store, IssuerMetadata.load.
  rewrite Hm.
  destruct (IssuerMetadata.discovery_doc (net (store w))) as [[c ks] |];
    cbn; repeat split; done.
Qed.

(** C7. The handler constructs one authorizer and calls it. If the call
    returns claims, they are in [response.locals.claims] when [next] is
    called, and [next] is called once; if the call throws, the handler
    throws the same error, the response is as it was and [next] is not
    called. *)
Theorem authorizationHandler_attaches_claims_before_next
    (authorize : Authorizer → Request → ClaimsCache.t → IssuerMetadata.Net →
                 (exn + ClaimsPrincipal) * ClaimsCache.t * IssuerMetadata.Net)
    (this : t) (request : Request) (w : World)
    (m : IssuerMetadata.t) (c : ClaimsCache.t) :
  metas (store w) !! _issuerMetadata this = Some m →
  caches (store w) !! _claimsCache this = Some c →
  let out := authorizationHandler authorize this request w in
  ∃ authorizer,
    authorizers (events (snd out)) = authorizers (events w) ++ [authorizer]
    ∧ match authorize authorizer request c (net (store w)) with
      | (inr claims, _, _) =>
          fst out = inr tt
          ∧ locals_claims (response (snd out)) = Some claims
          ∧ next_calls (events (snd out)) =
              next_calls (events w) ++ [{| locals_claims := Some claims |}]
      | (inl e, _, _) =>
          fst out = inl e
          ∧ response (snd out) = response w
          ∧ next_calls (events (snd out)) = next_calls (events w)
      end.
Proof.
  intros Hm Hc out. subst out.
  set (authorizer :=
         {| authorizer_ref := S (S (next_ref w));
            authorizer_claimsCache := _claimsCache this;
            authorizer_authenticator :=
              {| authenticator_ref := next_ref w;
                 authenticator_oauth := oauth (_apiConfig this);
                 authenticator_issuer := IssuerMetadata.config m |};
            authorizer_customClaimsProvider := {| provider_ref := S (next_ref w) |} |}).
  exists authorizer.
  unfold authorizationHandler, Authorizer_authorizeRequestAndGetClaims,
    IssuerMetadata_issuer, bind, alloc, emit, on_store, set_response, get_response.
  cbn. rewrite Hm. cbn. rewrite Hc. fold authorizer.
  destruct (authorize authorizer request c (net (store w))) as [[[e | claims] c'] n'];
    cbn; rewrite !authorizers_app, !next_calls_app; cbn; rewrite ?app_nil_r; done.
Qed.

Section Serving.

Variable authorize :
  Authorizer → Request → ClaimsCache.t → IssuerMetadata.Net →
  (exn + ClaimsPrincipal) * ClaimsCache.t * IssuerMetadata.Net.

(** One request: three objects are constructed, with the next three
    references, and the authorizer is built from the router's fields. *)
Lemma handle_step (this : t) (md : IssuerMetadata.t) (request : Request) (w : World) :
  serving this md w →
  let w' := handle authorize this request w in
  serving this md w'
  ∧ ∃ a rest,
      events w' = events w ++
        [New AuthenticatorClass (next_ref w);
         New SampleCustomClaimsProviderClass (S (next_ref w));
         New AuthorizerClass (S (S (next_ref w)));
         Authorize a request] ++ rest
      ∧ all_constructed rest = []
      ∧ authorizers rest = []
      ∧ authorizer_refs a = [next_ref w; S (next_ref w); S (S (next_ref w))]
      ∧ built_from this md a.
Proof.
  intros (Hm & [c Hc] & Hlt & Hnd) w'. subst w'.
  set (a := {| authorizer_ref := S (S (next_ref w));
               authorizer_claimsCache := _claimsCache this;
               authorizer_authenticator :=
                 {| authenticator_ref := next_ref w;
                    authenticator_oauth := oauth (_apiConfig this);
                    authenticator_issuer := IssuerMetadata.config md |};
               authorizer_customClaimsProvider := {| provider_ref := S (next_ref w) |} |}).
  unfold handle, authorizationHandler, Authorizer_authorizeRequestAndGetClaims,
    IssuerMetadata_issuer, bind, alloc, emit, on_store, set_response, get_response.
  cbn. rewrite Hm. cbn. rewrite Hc. fold a.
  assert (Hfresh : ∀ evs,
             all_constructed evs = [] →
             Forall (fun r => r < S (S (S (next_ref w))))%nat
               (all_constructed
                  ((((events w ++ [New AuthenticatorClass (next_ref w)]) ++
                     [New SampleCustomClaimsProviderClass (S (next_ref w))]) ++
                    [New AuthorizerClass (S (S (next_ref w)))]) ++ evs))
             ∧ NoDup
                 (all_constructed
                    ((((events w ++ [New AuthenticatorClass (next_ref w)]) ++
                       [New SampleCustomClaimsProviderClass (S (next_ref w))]) ++
                      [New AuthorizerClass (S (S (next_ref w)))]) ++ evs))).
  { intros evs Hevs. rewrite !all_constructed_app, Hevs, app_nil_r. cbn.
    rewrite <- !app_assoc. cbn. split.
    - apply Forall_app. split.
      + eapply Forall_impl; [exact Hlt | cbn; lia].
      + repeat constructor; lia.
    - apply NoDup_app. split; [exact Hnd |]. split.
      + intros x Hx. rewrite Forall_forall in Hlt. specialize (Hlt x Hx).
        rewrite !elem_of_cons, elem_of_nil. lia.
      + repeat constructor; rewrite ?elem_of_cons, ?elem_of_nil; lia. }
  destruct (authorize a request c (net (store w))) as [[[e | claims] c'] n']; cbn.
  - split.
    + repeat split; cbn; [done | by rewrite lookup_insert_eq | |].
      * rewrite <- (app_nil_r (_ ++ [Authorize a request])), <- app_assoc.
        apply (Hfresh ([Authorize a request] ++ [])). reflexivity.
      * rewrite <- (app_nil_r (_ ++ [Authorize a request])), <- app_assoc.
        apply (Hfresh ([Authorize a request] ++ [])). reflexivity.
    + exists a, []. rewrite <- !app_assoc. done.
  - split.
    + repeat split; cbn; [done | by rewrite lookup_insert_eq | |].
      * rewrite <- app_assoc. apply (Hfresh [Authorize a request; Next _]). reflexivity.
      * rewrite <- app_assoc. apply (Hfresh [Authorize a request; Next _]). reflexivity.
    + exists a, [Next {| locals_claims := Some claims |}]. rewrite <- !app_assoc. done.
Qed.

(** Any number of requests: nothing but per-request objects is
    constructed, one authorizer per request, each on three references of
    its own. *)
Lemma serve_steps (this : t) (md : IssuerMetadata.t) (requests : list Request) (w : World) :
  serving this md w →
  let w' := serve authorize this requests w in
  serving this md w'
  ∧ ∃ evs,
      events w' = events w ++ evs
      ∧ constructed ClaimsCacheClass evs = []
      ∧ constructed IssuerMetadataClass evs = []
      ∧ length (authorizers evs) = length requests
      ∧ Forall (built_from this md) (authorizers evs)
      ∧ all_constructed evs = concat (map authorizer_refs (authorizers evs)).
Proof.
  revert w. induction requests as [| request requests IH]; intros w Hw; cbn.
  - split; [done |]. exists []. rewrite app_nil_r. repeat split; constructor.
  - destruct (handle_step this md request w Hw) as (Hw1 & a & rest & Hev & Hall & Hau & Hrefs & Hb).
    destruct (IH _ Hw1) as (Hw2 & evs & Hev2 & Hcc & Him & Hlen & Hbs & Hrs).
    split; [exact Hw2 |].
    unfold serve in Hev2. cbn in Hev2.
    eexists. split; [rewrite Hev2, Hev, <- app_assoc; reflexivity |].
    assert (Hnone : ∀ cl, constructed cl rest = []).
    { intros cl. clear -Hall. induction rest as [| [] rest' IHr]; cbn in *; try done; auto. }
    rewrite !constructed_app, !authorizers_app, !all_constructed_app.
    rewrite Hcc, Him, Hall, Hau, !Hnone. cbn.
    repeat split; [by rewrite Hlen | by constructor |].
    rewrite Hrs. unfold authorizer_refs in Hrefs.
    injection Hrefs as -> -> ->. reflexivity.
Qed.

End Serving.

(** C8. A router built by its constructor, initialized and then serving
    any requests: the only claims cache and the only issuer metadata ever
    constructed are the two made in the constructor, and the router's
    fields refer to them; every request gets an authorizer that is given
    that claims cache and the issuer of that metadata object; and the
    authenticator, the claims provider and the authorizer of each request
    are new objects, on references no other object has. *)
Theorem router_collaborators_constructed_once
    (authorize : Authorizer → Request → ClaimsCache.t → IssuerMetadata.Net →
                 (exn + ClaimsPrincipal) * ClaimsCache.t * IssuerMetadata.Net)
    (apiConfig : Configuration) (requests : list Request) (n : IssuerMetadata.Net) :
  let built := constructor apiConfig (initial_world n) in
  ∃ this md,
    fst built = inr this
    ∧ let started := snd (initialize this (snd built)) in
      let w := serve authorize this requests started in
      constructed ClaimsCacheClass (events w) = [_claimsCache this]
      ∧ constructed IssuerMetadataClass (events w) = [_issuerMetadata this]
      ∧ metas (store w) !! _issuerMetadata this = Some md
      ∧ is_Some (caches (store w) !! _claimsCache this)
      ∧ length (authorizers (events w)) = length requests
      ∧ Forall (built_from this md) (authorizers (events w))
      ∧ all_constructed (events w) =
          [_claimsCache this; _issuerMetadata this]
          ++ concat (map authorizer_refs (authorizers (events w)))
      ∧ NoDup (all_constructed (events w)).
Proof.
  intros built. subst built.
  set (this := {| _apiConfig := apiConfig; _claimsCache := 0%nat; _issuerMetadata := 1%nat |}).
  set (w1 := snd (constructor apiConfig (initial_world n))).
  assert (Hstart : ∃ md, serving this md (snd (initialize this w1))
                         ∧ events (snd (initialize this w1)) =
                             [New ClaimsCacheClass 0%nat; New IssuerMetadataClass 1%nat]).
  { unfold initialize, IssuerMetadata_load, on_store, IssuerMetadata.load. cbn.
    rewrite lookup_insert_eq.
    destruct (IssuerMetadata.discovery_doc n) as [[c ks] |]; cbn;
      (eexists; split; [| reflexivity]);
      unfold serving; cbn; (split; [| split; [| split]]).
    all: try (by rewrite lookup_insert_eq).
    all: try (rewrite lookup_insert_ne by lia; rewrite lookup_insert_eq; by eexists).
    all: try (rewrite lookup_insert_eq; by eexists).
    all: try (repeat constructor; rewrite ?elem_of_cons, ?elem_of_nil; lia). }
  destruct Hstart as (md & Hserving & Hevents).
  exists this, md. split; [reflexivity |].
  fold w1. cbn zeta.
  destruct (serve_steps authorize this md requests _ Hserving)
    as ((Hm & Hc & _ & Hnd) & evs & Hev & Hcc & Him & Hlen & Hbs & Hrs).
  rewrite Hev, Hevents in *.
  rewrite !constructed_app, !authorizers_app, !all_constructed_app in *.
  rewrite Hcc, Him. cbn in *.
  rewrite <- Hrs. done.
Qed.

Lemma initialize_is_metadata_load_witness :
  metas (store sample_world) !! _issuerMetadata sample_router
    = Some (IssuerMetadata.new sample_oauth)
  ∧ fst (initialize sample_router sample_world) = inr tt.
Proof.
  split; [reflexivity |].
  exact (proj1 (proj1 (proj2 (proj2 (proj2 (proj2 (proj2
    (initialize_is_metadata_load sample_router sample_world
       (IssuerMetadata.new sample_oauth) eq_refl)))))))).
Defined.

Lemma authorizationHandler_attaches_claims_before_next_witness :
  let authorize := fun (_ : Authorizer) (_ : Request) (c : ClaimsCache.t)
                       (n : IssuerMetadata.Net) =>
                     (inr (sample_principal 100) : exn + ClaimsPrincipal, c, n) in
  ∃ authorizer,
    authorizers (events (snd (authorizationHandler authorize sample_router
                                sample_request sample_world))) =
      authorizers (events sample_world) ++ [authorizer]
    ∧ fst (authorizationHandler authorize sample_router sample_request sample_world)
        = inr tt
    ∧ next_calls (events (snd (authorizationHandler authorize sample_router
                                 sample_request sample_world))) =
        [{| locals_claims := Some (sample_principal 100) |}].
Proof.
  intros authorize.
  destruct (authorizationHandler_attaches_claims_before_next authorize
              sample_router sample_request sample_world
              (IssuerMetadata.new sample_oauth) (ClaimsCache.new sample_oauth)
              eq_refl eq_refl) as (a & Ha & Hres).
  exists a. split; [exact Ha |].
  cbn in Hres. destruct Hres as (Hr & _ & Hn). split; [exact Hr | exact Hn].
Defined.

Example getCompanyTransactions_rejects :
  ∀ id, id ∈ ["abc"; "0"; "-5"; ""; " "; ".5"] →
  fst (getCompanyTransactions (fun _ id => inr (Js.Num id)) sample_router
         {| params := {["id" := Js.units id]}; headers := ∅ |} sample_world)
  = inl (ClientErr (ClientError.new (Js.of_Z 400) "invalid_company_id"
                      "The company id must be a positive numeric integer")).
Proof.
  intros id Hid. rewrite !elem_of_cons, elem_of_nil in Hid.
  destruct Hid as [-> | [-> | [-> | [-> | [-> | [-> | []]]]]]]; reflexivity.
Qed.

Lemma getCompanyTransactions_checks_id_witness :
  service_calls
    (events (snd (getCompanyTransactions (fun _ id => inr (Js.Num id)) sample_router
                    (transactions_request (Js.units "3.5")) sample_world)))
  = [(company_service_in sample_world, Js.of_Z 3)].
Proof.
  pose proof (getCompanyTransactions_checks_id (fun _ id => inr (Js.Num id))
                sample_router (transactions_request (Js.units "3.5")) sample_world)
    as [_ H].
  destruct (H eq_refl) as [_ Hcalls]. exact Hcalls.
Defined.

Example parseInt_rounds_to_even :
  Js.parseInt (Js.units "9007199254740993") 10 = Js.of_Z 9007199254740992
  ∧ Js.parseInt (Js.units "9007199254740995") 10 = Js.of_Z 9007199254740996
  ∧ Js.parseInt (Js.units "9007199254740992") 10 = Js.of_Z 9007199254740992.
Proof. repeat split; vm_compute; reflexivity. Qed.

Example parseInt_overflows_to_infinity :
  Js.parseInt (replicate 400 57%N) 10 = Js.Infinity false
  ∧ Js.parseInt (45%N :: replicate 400 57%N) 10 = Js.Infinity true.
Proof. split; vm_compute; reflexivity. Qed.

Example getCompanyTransactions_passes_the_double :
  map snd (service_calls
             (events (snd (getCompanyTransactions (fun _ id => inr (Js.Num id))
                             sample_router
                             (transactions_request (Js.units "9007199254740993"))
                             sample_world))))
  = [Js.of_Z 9007199254740992].
Proof. vm_compute. reflexivity. Qed.

Example getCompanyTransactions_3_5 :
  let request := {| params := {["id" := Js.units "3.5"]}; headers := ∅ |} in
  let this := {| _apiConfig := {| oauth := {| issuerUrl := ""; expectedAudience := "" |} |};
                 _claimsCache := 0%nat; _issuerMetadata := 1%nat |} in
  let out := getCompanyTransactions (fun _ id => inr (Js.Num id)) this request
               (initial_world {| IssuerMetadata.discovery_doc := None;
                                 IssuerMetadata.jwks_doc := None;
                                 IssuerMetadata.fetched := [] |}) in
  fst out = inr tt
  ∧ map snd (service_calls (events (snd out))) = [Js.of_Z 3].
Proof. vm_compute. done. Qed.

End RouterFacts.

(** ** Properties of the issuer metadata *)

Section IssuerMetadataFacts.

Import IssuerMetadata.

Lemma refreshes_fetch_keys (n : Net) : refreshes (fetch FetchKeys n) = S (refreshes n).
Proof.
  unfold refreshes, fetch. cbn.
  rewrite filter_app, length_app.
  rewrite filter_cons_True by done. rewrite filter_nil. cbn. lia.
Qed.

(** C4. A call with a key id that the key set does not hold performs one
    refresh of the key set (one fetch of the keys, no other fetch) and
    looks the key up once more, in the refreshed set: the result is the
    key found there, or [SigningKeyDownloadFailure] (status 500, code
    [signing_key_download]) if it is still absent. *)
Theorem getSigningKey_refreshes_once (kid : string) (this : t) (n : Net) :
  lookup kid (keys this) = None →
  let '(r, this', n') := getSigningKey kid this n in
  (this', n') = refresh this n
  ∧ fetched n' = fetched n ++ [FetchKeys]
  ∧ refreshes n' = S (refreshes n)
  ∧ r = match lookup kid (keys this') with
        | Some k => inr k
        | None => inl SigningKeyDownloadFailure
        end
  ∧ (lookup kid (keys this') = None →
     r = inl SigningKeyDownloadFailure
     ∧ failure_status SigningKeyDownloadFailure = 500
     ∧ failure_code SigningKeyDownloadFailure = Some "signing_key_download").
Proof.
  intros Hmiss. unfold getSigningKey. rewrite Hmiss.
  destruct (refresh this n) as [this' n'] eqn:Hrefresh.
  assert (Hn : n' = fetch FetchKeys n) by (unfold refresh in Hrefresh; congruence).
  destruct (lookup kid (keys this')) as [k |] eqn:Hretry.
  - rewrite Hretry. subst n'. rewrite refreshes_fetch_keys. by repeat split.
  - rewrite Hretry. subst n'. rewrite refreshes_fetch_keys. by repeat split.
Qed.

Lemma getSigningKey_refreshes_once_witness :
  getSigningKey "k9" unloaded sample_net
  = (inl SigningKeyDownloadFailure,
     {| configuration := sample_oauth; config := None;
        keys := [sample_key "k1"; sample_key "k2"] |},
     fetch FetchKeys sample_net).
Proof.
  pose proof (getSigningKey_refreshes_once "k9" unloaded sample_net eq_refl) as H.
  destruct (getSigningKey "k9" unloaded sample_net) as [[r this'] n'].
  destruct H as (Hrefresh & _ & _ & Hr & _).
  injection Hrefresh as -> ->. rewrite Hr. reflexivity.
Defined.

Example getSigningKey_after_rotation :
  fst (fst (getSigningKey "k2" unloaded sample_net)) = inr (sample_key "k2").
Proof. reflexivity. Qed.

Example getSigningKey_present_no_refresh :
  let loaded := {| configuration := sample_oauth; config := None;
                   keys := [sample_key "k1"] |} in
  getSigningKey "k1" loaded sample_net = (inr (sample_key "k1"), loaded, sample_net).
Proof. reflexivity. Qed.

End IssuerMetadataFacts.

(** ** Properties of the claims cache *)

Section ClaimsCacheFacts.

Import ClaimsCache.

Lemma run_cons (i : Input) (inputs : list Input) (this : t) :
  run (i :: inputs) this =
    (fst (run inputs (fst (step i this))),
     snd (step i this) ++ snd (run inputs (fst (step i this)))).
Proof.
  unfold run; fold run. destruct (step i this) as [this' out]. cbn [fst snd].
  destruct (run inputs this') as [this'' out']. reflexivity.
Qed.

Lemma filter_none {A} (P : A → Prop) `{∀ x, Decision (P x)} (l : list A) :
  Forall (fun x => ¬ P x) l → filter P l = [].
Proof.
  induction 1 as [| x l Hx _ IH]; [done |].
  by rewrite filter_cons_False.
Qed.

Lemma filter_all {A} (P : A → Prop) `{∀ x, Decision (P x)} (l : list A) :
  Forall P l → filter P l = l.
Proof.
  induction 1 as [| x l Hx _ IH]; [done |].
  rewrite filter_cons_True by done. by rewrite IH.
Qed.

Lemma run_app (inputs inputs' : list Input) (this : t) :
  run (inputs ++ inputs') this =
    (fst (run inputs' (fst (run inputs this))),
     snd (run inputs this) ++ snd (run inputs' (fst (run inputs this)))).
Proof.
  revert this. induction inputs as [| i inputs IH]; intros this.
  - cbn. by destruct (run inputs' this).
  - rewrite <- app_comm_cons, !run_cons, IH. cbn. by rewrite app_assoc.
Qed.

(** A step touches the slot of its own key only. *)
Lemma step_other (i : Input) (k : string) (this : t) :
  input_key i ≠ k → slots (fst (step i this)) !! k = slots this !! k.
Proof.
  intros Hk. destruct i as [c k' now | k' r]; cbn in *.
  - unfold getOrCompute. destruct (slots this !! k') as [[ws | e] |]; cbn.
    + by rewrite lookup_insert_ne.
    + destruct (live now e); cbn; [done |].
      by rewrite lookup_insert_ne, lookup_delete_ne.
    + by rewrite lookup_insert_ne.
  - unfold settle. destruct (slots this !! k') as [[ws | e] |]; cbn; [| done | done].
    destruct r; cbn; [by rewrite lookup_delete_ne | by rewrite lookup_insert_ne].
Qed.

(** What a step puts out is about its own key. *)
Lemma step_output_key (i : Input) (this : t) :
  Forall (fun o => output_key o = input_key i) (snd (step i this)).
Proof.
  destruct i as [c k now | k r]; cbn.
  - unfold getOrCompute. destruct (slots this !! k) as [[ws | e] |]; cbn.
    + constructor.
    + destruct (live now e); cbn; by repeat constructor.
    + by repeat constructor.
  - unfold settle. destruct (slots this !! k) as [[ws | e] |]; cbn; [| done | done].
    apply Forall_forall. intros o Ho. apply list_elem_of_fmap in Ho as (c & -> & _). done.
Qed.

(** A step depends on the slot of its own key only. *)
Lemma step_local (i : Input) (this this2 : t) :
  slots this !! input_key i = slots this2 !! input_key i →
  snd (step i this) = snd (step i this2)
  ∧ slots (fst (step i this)) !! input_key i = slots (fst (step i this2)) !! input_key i.
Proof.
  intros Hs. destruct i as [c k now | k r]; cbn in *.
  - unfold getOrCompute. rewrite <- Hs.
    destruct (slots this !! k) as [[ws | e] |] eqn:Hk; cbn.
    + by rewrite !lookup_insert_eq.
    + destruct (live now e); cbn; [split; congruence |].
      by rewrite !lookup_insert_eq.
    + by rewrite !lookup_insert_eq.
  - unfold settle. rewrite <- Hs.
    destruct (slots this !! k) as [[ws | e] |] eqn:Hk; cbn;
      [| split; congruence | split; congruence].
    destruct r; cbn; [by rewrite !lookup_delete_eq | by rewrite !lookup_insert_eq].
Qed.

(** The outputs for one key depend on the inputs for that key alone,
    whatever is interleaved with them. *)
Lemma run_projection (k : string) (inputs : list Input) (this this2 : t) :
  slots this !! k = slots this2 !! k →
  filter (fun o => output_key o = k) (snd (run inputs this))
    = filter (fun o => output_key o = k)
        (snd (run (filter (fun i => input_key i = k) inputs) this2))
  ∧ slots (fst (run inputs this)) !! k
    = slots (fst (run (filter (fun i => input_key i = k) inputs) this2)) !! k.
Proof.
  revert this this2. induction inputs as [| i inputs IH]; intros this this2 Hs.
  - done.
  - rewrite run_cons. cbn [fst snd]. destruct (decide (input_key i = k)) as [Hk | Hk].
    + rewrite filter_cons_True by done. rewrite run_cons. cbn [fst snd].
      subst k. destruct (step_local i this this2 Hs) as [Hout Hslot].
      destruct (IH _ _ Hslot) as [IHout IHslot].
      rewrite !filter_app, Hout, IHout. done.
    + rewrite filter_cons_False by done.
      destruct (IH (fst (step i this)) this2) as [IHout IHslot].
      { by rewrite step_other. }
      rewrite filter_app, IHout, IHslot. split; [| done].
      rewrite (filter_none _ (snd (step i this))); [done |].
      eapply Forall_impl; [apply step_output_key | cbn; congruence].
Qed.

Lemma getOrCompute_idle (c : caller) (k : string) (now : timestamp) (this : t) :
  idle k now this →
  snd (getOrCompute c k now this) = [Compute k c]
  ∧ slots (fst (getOrCompute c k now this)) !! k = Some (InFlight [c]).
Proof.
  unfold idle, getOrCompute.
  destruct (slots this !! k) as [[ws | e] |]; [done | |].
  - intros ->. cbn. by rewrite lookup_insert_eq.
  - intros _. cbn. by rewrite lookup_insert_eq.
Qed.

(** Calls that arrive while the computation is in flight join its
    waiters, in order, and cause nothing else. *)
Lemma run_waiting (k : string) (calls : list (caller * timestamp)) (ws : list caller) (this : t) :
  slots this !! k = Some (InFlight ws) →
  snd (run (map (fun ct => Call (fst ct) k (snd ct)) calls) this) = []
  ∧ slots (fst (run (map (fun ct => Call (fst ct) k (snd ct)) calls) this)) !! k
    = Some (InFlight (ws ++ map fst calls)).
Proof.
  revert ws this. induction calls as [| [c now] calls IH]; intros ws this Hs.
  - cbn. by rewrite app_nil_r.
  - cbn [map]. rewrite run_cons. cbn [fst snd step].
    unfold getOrCompute at 1 3. rewrite Hs. cbn [fst snd].
    destruct (IH (ws ++ [c]) (with_slots this (<[k := InFlight (ws ++ [c])]> (slots this))))
      as [IHout IHslot].
    { cbn. by rewrite lookup_insert_eq. }
    unfold getOrCompute. rewrite Hs. cbn [fst snd].
    rewrite IHout, IHslot, <- app_assoc. done.
Qed.

Lemma settle_in_flight (k : string) (r : exn + ClaimsPrincipal) (ws : list caller) (this : t) :
  slots this !! k = Some (InFlight ws) →
  snd (settle k r this) = map (fun c => Return k c r) ws
  ∧ slots (fst (settle k r this)) !! k =
      match r with
      | inr p => Some (Completed {| principal := p; expiresAt := expiry (base p) |})
      | inl _ => None
      end.
Proof.
  intros Hs. unfold settle. rewrite Hs. cbn.
  destruct r; cbn; [by rewrite lookup_delete_eq | by rewrite lookup_insert_eq].
Qed.

Lemma computations_projection (k : string) (out : list Output) :
  computations k out = computations k (filter (fun o => output_key o = k) out).
Proof.
  unfold computations. induction out as [| o out IH]; [done |].
  destruct (decide (output_key o = k)) as [Hk | Hk].
  - rewrite filter_cons_True by done. cbn. destruct (is_compute k o); cbn; by rewrite IH.
  - rewrite filter_cons_False by done. cbn.
    destruct o as [k' c | k' c r]; cbn in *; [| done].
    destruct (String.eqb_spec k' k); [done | done].
Qed.

Lemma computations_returns (k : string) (r : exn + ClaimsPrincipal) (cs : list caller) :
  computations k (map (fun c => Return k c r) cs) = 0%nat.
Proof. unfold computations. by induction cs. Qed.

(** C1. Take any interleaving of calls and completions, for any keys, in
    which the events for key [k] are N calls (N at least 1) followed by
    the successful end of the computation, starting when [k] has no live
    entry and no computation in flight. The compute function runs once
    for [k], on behalf of the first caller, and each of the N callers is
    returned the one principal computed; that principal is then the
    cached entry. *)
Theorem single_flight
    (this : t) (k : string) (c0 : caller) (t0 : timestamp)
    (calls : list (caller * timestamp)) (p : ClaimsPrincipal) (inputs : list Input) :
  idle k t0 this →
  filter (fun i => input_key i = k) inputs
    = Call c0 k t0 :: map (fun ct => Call (fst ct) k (snd ct)) calls ++ [Settle k (inr p)] →
  let out := snd (run inputs this) in
  filter (fun o => output_key o = k) out
    = Compute k c0 :: map (fun c => Return k c (inr p)) (c0 :: map fst calls)
  ∧ computations k out = 1%nat
  ∧ entry k (fst (run inputs this))
    = Some {| principal := p; expiresAt := expiry (base p) |}.
Proof.
  intros Hidle Hk out. subst out.
  destruct (run_projection k inputs this this eq_refl) as [Hout Hslot].
  rewrite Hk in Hout, Hslot.
  rewrite run_cons, run_app in Hout, Hslot. cbn [fst snd step] in Hout, Hslot.
  destruct (getOrCompute_idle c0 k t0 this Hidle) as [Hout0 Hslot0].
  destruct (run_waiting k calls [c0] _ Hslot0) as [Hout1 Hslot1].
  destruct (settle_in_flight k (inr p) _ _ Hslot1) as [Hout2 Hslot2].
  replace (run [Settle k (inr p)]
             (fst (run (map (fun ct => Call (fst ct) k (snd ct)) calls)
                     (fst (getOrCompute c0 k t0 this)))))
    with (settle k (inr p)
            (fst (run (map (fun ct => Call (fst ct) k (snd ct)) calls)
                    (fst (getOrCompute c0 k t0 this))))) in Hout, Hslot.
  2: { cbn. destruct (settle k _ _). by rewrite app_nil_r. }
  rewrite Hout0, Hout1, Hout2 in Hout. cbn [app] in Hout.
  rewrite Hslot2 in Hslot.
  assert (Hall : filter (fun o => output_key o = k)
                   (Compute k c0 :: map (fun c => Return k c (inr p)) (c0 :: map fst calls))
                 = Compute k c0 :: map (fun c => Return k c (inr p)) (c0 :: map fst calls)).
  { apply filter_all. constructor; [done |].
    apply Forall_forall. intros o Ho. apply list_elem_of_fmap in Ho as (c & -> & _). done. }
  rewrite Hall in Hout.
  split; [exact Hout |]. split.
  - rewrite computations_projection, Hout.
    change (computations k (Compute k c0 :: ?l))
      with (length (List.filter (is_compute k) (Compute k c0 :: l))).
    cbn [List.filter is_compute]. rewrite String.eqb_refl. cbn [length].
    f_equal. apply (computations_returns k (inr p) (c0 :: map fst calls)).
  - unfold entry. by rewrite Hslot.
Qed.

Lemma single_flight_witness :
  computations "h1" (snd (run sample_burst (new sample_oauth))) = 1%nat
  ∧ filter (fun o => output_key o = "h1") (snd (run sample_burst (new sample_oauth)))
    = [Compute "h1" 1%nat;
       Return "h1" 1%nat (inr (sample_principal 100));
       Return "h1" 2%nat (inr (sample_principal 100));
       Return "h1" 3%nat (inr (sample_principal 100))].
Proof.
  pose proof (single_flight (new sample_oauth) "h1" 1%nat 10
                [(2%nat, 11); (3%nat, 12)] (sample_principal 100) sample_burst
                I eq_refl) as (Hout & Hcount & _).
  split; [exact Hcount | exact Hout].
Defined.

(** ** Expiry *)

Lemma entry_with_slots_insert (this : t) (k k' : string) (s : Slot) (m : gmap string Slot) :
  entry k' (with_slots this (<[k := s]> m)) =
    if decide (k = k') then match s with Completed e => Some e | InFlight _ => None end
    else entry k' (with_slots this m).
Proof.
  unfold entry. cbn. rewrite lookup_insert. by case_decide.
Qed.

Lemma entry_with_slots_delete (this : t) (k k' : string) (m : gmap string Slot) :
  entry k' (with_slots this (delete k m)) =
    if decide (k = k') then None else entry k' (with_slots this m).
Proof.
  unfold entry. cbn. rewrite lookup_delete. by case_decide.
Qed.

Lemma step_bounded (i : Input) (this : t) :
  entries_bounded this → entries_bounded (fst (step i this)).
Proof.
  intros Hb k' e'. destruct i as [c k now | k r]; cbn.
  - unfold getOrCompute. destruct (slots this !! k) as [[ws | e] |]; cbn [fst].
    + rewrite entry_with_slots_insert. case_decide; [done | apply Hb].
    + destruct (live now e); cbn [fst]; [apply Hb |].
      rewrite entry_with_slots_insert. case_decide; [done |].
      rewrite entry_with_slots_delete. case_decide; [done | apply Hb].
    + rewrite entry_with_slots_insert. case_decide; [done | apply Hb].
  - unfold settle. destruct (slots this !! k) as [[ws | e] |]; cbn [fst];
      [| apply Hb | apply Hb].
    destruct r as [err | p].
    + rewrite entry_with_slots_delete. case_decide; [done | apply Hb].
    + rewrite entry_with_slots_insert. case_decide; [| apply Hb].
      intros [= <-]. cbn. lia.
Qed.

Lemma run_bounded (inputs : list Input) (this : t) :
  entries_bounded this → entries_bounded (fst (run inputs this)).
Proof.
  revert this. induction inputs as [| i inputs IH]; intros this Hb; [done |].
  rewrite run_cons. cbn [fst]. by apply IH, step_bounded.
Qed.

(** The invariant of the data model: a cache entry's [expiresAt] never
    exceeds the expiry of its base claims. *)
Lemma reachable_bounded (this : t) : reachable this → entries_bounded this.
Proof.
  intros (oauth & inputs & ->). apply run_bounded.
  intros k e. unfold entry. cbn. by rewrite lookup_empty.
Qed.

(** C2. In a cache state reached by calls and completions, a call for a
    key whose stored entry belongs to a token that expired before [now]
    returns nothing from the cache: the entry is removed, the compute
    function is invoked for this caller, and the caller waits for it. *)
Theorem expired_entry_is_recomputed
    (this : t) (c : caller) (k : string) (now : timestamp) (e : CacheEntry) :
  reachable this →
  entry k this = Some e →
  expiry (base (principal e)) < now →
  snd (getOrCompute c k now this) = [Compute k c]
  ∧ (∀ r, Return k c r ∉ snd (getOrCompute c k now this))
  ∧ entry k (fst (getOrCompute c k now this)) = None
  ∧ slots (fst (getOrCompute c k now this)) !! k = Some (InFlight [c])
  ∧ (∀ k', k' ≠ k →
       slots (fst (getOrCompute c k now this)) !! k' = slots this !! k').
Proof.
  intros Hreach He Hnow.
  pose proof (reachable_bounded this Hreach k e He) as Hle.
  assert (Hdead : live now e = false) by (unfold live; lia).
  assert (Hidle : idle k now this).
  { unfold idle. unfold entry in He.
    destruct (slots this !! k) as [[ws | e0] |]; [done | | done]. congruence. }
  destruct (getOrCompute_idle c k now this Hidle) as [Hout Hslot].
  rewrite Hout. split; [done |]. split.
  - intros r. rewrite elem_of_cons, elem_of_nil. intros [H | []]. discriminate H.
  - split; [unfold entry; by rewrite Hslot |]. split; [done |].
    intros k' Hk'. apply (step_other (Call c k now)). cbn. congruence.
Qed.

Lemma expired_entry_is_recomputed_witness :
  let cached := fst (run [Call 1%nat "h1" 10; Settle "h1" (inr (sample_principal 100))]
                       (new sample_oauth)) in
  snd (getOrCompute 2%nat "h1" 100 cached)
    = [Return "h1" 2%nat (inr (sample_principal 100))]
  ∧ snd (getOrCompute 2%nat "h1" 101 cached) = [Compute "h1" 2%nat].
Proof.
  intros cached. split; [reflexivity |].
  refine (proj1 (expired_entry_is_recomputed cached 2%nat "h1" 101
                   {| principal := sample_principal 100; expiresAt := 100 |} _ eq_refl _)).
  - exists sample_oauth, [Call 1%nat "h1" 10; Settle "h1" (inr (sample_principal 100))].
    reflexivity.
  - reflexivity.
Defined.

(** ** Failure *)

(** C3. When the computation in flight for [k] fails: every waiter is
    given the error, no entry is stored for [k] (the stored entries, for
    every key, are those from before the failure, and the other keys'
    slots are untouched), and a later call with [k], at any time, invokes
    the compute function again. *)
Theorem failed_computation_is_not_cached
    (this : t) (k : string) (ws : list caller) (err : exn)
    (c' : caller) (now' : timestamp) :
  slots this !! k = Some (InFlight ws) →
  let failed := fst (settle k (inl err) this) in
  snd (settle k (inl err) this) = map (fun c => Return k c (inl err)) ws
  ∧ slots failed !! k = None
  ∧ (∀ k', entry k' failed = entry k' this)
  ∧ (∀ k', k' ≠ k → slots failed !! k' = slots this !! k')
  ∧ snd (getOrCompute c' k now' failed) = [Compute k c']
  ∧ slots (fst (getOrCompute c' k now' failed)) !! k = Some (InFlight [c']).
Proof.
  intros Hs failed. subst failed.
  destruct (settle_in_flight k (inl err) ws this Hs) as [Hout Hslot].
  split; [exact Hout |]. split; [exact Hslot |]. split; [| split].
  - intros k'. unfold entry. destruct (decide (k' = k)) as [-> | Hk'].
    + by rewrite Hslot, Hs.
    + pose proof (step_other (Settle k (inl err)) k' this) as Hother.
      cbn in Hother. rewrite Hother; [done | congruence].
  - intros k' Hk'. by apply (step_other (Settle k (inl err))).
  - apply getOrCompute_idle. unfold idle. by rewrite Hslot.
Qed.

Lemma failed_computation_is_not_cached_witness :
  snd (run [Call 1%nat "h1" 10; Call 2%nat "h1" 10;
            Settle "h1" (inl (Classified ClaimsFailure));
            Call 3%nat "h1" 11] (new sample_oauth))
  = [Compute "h1" 1%nat;
     Return "h1" 1%nat (inl (Classified ClaimsFailure));
     Return "h1" 2%nat (inl (Classified ClaimsFailure));
     Compute "h1" 3%nat]
  ∧ snd (getOrCompute 3%nat "h1" 11
           (fst (settle "h1" (inl (Classified ClaimsFailure))
                   (fst (run [Call 1%nat "h1" 10; Call 2%nat "h1" 10] (new sample_oauth))))))
    = [Compute "h1" 3%nat].
Proof.
  split; [reflexivity |].
  exact (proj1 (proj2 (proj2 (proj2 (proj2
    (failed_computation_is_not_cached
       (fst (run [Call 1%nat "h1" 10; Call 2%nat "h1" 10] (new sample_oauth)))
       "h1" [1%nat; 2%nat] (Classified ClaimsFailure) 3%nat 11 eq_refl)))))).
Defined.

Example live_entry_is_returned :
  snd (run [Call 1%nat "h1" 10; Settle "h1" (inr (sample_principal 100));
            Call 2%nat "h1" 50] (new sample_oauth))
  = [Compute "h1" 1%nat;
     Return "h1" 1%nat (inr (sample_principal 100));
     Return "h1" 2%nat (inr (sample_principal 100))].
Proof. reflexivity. Qed.

End ClaimsCacheFacts.

(** ** More on the client error *)

Section ClientErrorHistories.

Import ClientError.

Lemma toResponseFormat_ext (e e' : t) :
  _errorCode e = _errorCode e' → message e = message e' →
  _area e = _area e' → _id e = _id e' → _utcTime e = _utcTime e' →
  toResponseFormat e = toResponseFormat e'.
Proof.
  intros Hc Hm Ha Hi Hu. unfold toResponseFormat, has_details.
  by rewrite Hc, Hm, Ha, Hi, Hu.
Qed.

Lemma toResponseFormat_mutate_all (e : t) (ops : list Mutation) :
  toResponseFormat (mutate_all e ops) =
    toResponseFormat
      match last_details ops with
      | Some (area, id, utcTime) => setExceptionDetails area id utcTime e
      | None => e
      end.
Proof.
  revert e. induction ops as [| op ops IH]; intros e; [done |].
  unfold mutate_all in *. cbn [fold_left last_details]. rewrite IH.
  destruct (last_details ops) as [[[area id] utcTime] |].
  - apply toResponseFormat_ext; by destruct op.
  - by destruct op.
Qed.

(** X1. After any sequence of [setExceptionDetails] calls and
    [LogContext] assignments, the response body is the one given by the
    last [setExceptionDetails] call alone (or by none, if there was none):
    earlier calls leave no trace, and nothing assigned to [LogContext]
    ever reaches the body. *)
Theorem toResponseFormat_last_details_win
    (statusCode : Js.number) (errorCode msg : string) (ops : list Mutation) :
  toResponseFormat (mutate_all (new statusCode errorCode msg) ops) =
    match last_details ops with
    | Some (area, id, utcTime) =>
        toResponseFormat (setExceptionDetails area id utcTime (new statusCode errorCode msg))
    | None => [("code", Js.Str errorCode); ("message", Js.Str msg)]
    end.
Proof.
  rewrite toResponseFormat_mutate_all.
  by destruct (last_details ops) as [[[area id] utcTime] |].
Qed.


Lemma fields_after_mutations
    (statusCode : Js.number) (errorCode msg : string) (ops : list Mutation) :
  _statusCode (mutate_all (new statusCode errorCode msg) ops) = statusCode
  ∧ _errorCode (mutate_all (new statusCode errorCode msg) ops) = errorCode
  ∧ message (mutate_all (new statusCode errorCode msg) ops) = msg.
Proof.
  unfold mutate_all.
  assert (H : ∀ e, _statusCode (fold_left mutate ops e) = _statusCode e
                   ∧ _errorCode (fold_left mutate ops e) = _errorCode e
                   ∧ message (fold_left mutate ops e) = message e).
  { induction ops as [| op ops IH]; intros e; [done |].
    cbn. destruct (IH (mutate e op)) as (-> & -> & ->). by destruct op. }
  apply H.
Qed.

Lemma mutate_all_app (e : t) (ops ops' : list Mutation) :
  mutate_all e (ops ++ ops') = mutate_all (mutate_all e ops) ops'.
Proof. apply fold_left_app. Qed.

Lemma logContext_mutate_all (e : t) (ops : list Mutation) :
  _logContext (mutate_all e ops) = default (_logContext e) (last_assigned_context ops).
Proof.
  revert e. induction ops as [| op ops IH]; intros e; [done |].
  unfold mutate_all in *. cbn [fold_left last_assigned_context]. rewrite IH.
  destruct (last_assigned_context ops); [done |]. by destruct op.
Qed.

(** X2. The log entry of an error, after any sequence of changes: its
    [statusCode] is the constructor's, its [clientError] is the response
    body, and it has a [context] exactly when the value last assigned to
    [LogContext] is truthy, in which case that value is logged; a context
    such as [0], the empty string, [false] or [null] is silently left
    out. *)
Theorem toLogFormat_after_mutations
    (statusCode : Js.number) (errorCode msg : string) (ops : list Mutation) :
  let e := mutate_all (new statusCode errorCode msg) ops in
  toLogFormat e =
    [("statusCode", Js.Num statusCode); ("clientError", Js.Obj (toResponseFormat e))]
    ++ (if Js.truthy (last_context ops) then [("context", last_context ops)] else []).
Proof.
  intros e. subst e. unfold toLogFormat.
  destruct (fields_after_mutations statusCode errorCode msg ops)
    as [Hs _].
  rewrite Hs.
  rewrite (logContext_mutate_all (new statusCode errorCode msg) ops).
  fold (last_context ops). cbn [_logContext new].
  fold (last_context ops).
  destruct (Js.truthy (last_context ops)); reflexivity.
Qed.

Example falsy_context_is_not_logged :
  Js.keys (toLogFormat (set_LogContext (Js.Num (Js.of_Z 0))
                          (new (Js.of_Z 400) "invalid_company_id" "m")))
  = ["statusCode"; "clientError"]
  ∧ Js.keys (toLogFormat (set_LogContext (Js.Str "id=x")
                            (new (Js.of_Z 400) "invalid_company_id" "m")))
  = ["statusCode"; "clientError"; "context"].
Proof. split; reflexivity. Qed.

End ClientErrorHistories.

(** ** More on the router *)

Section RouterRuns.

Import Router.

Lemma le_of_Z (a b : Z) : Js.le (Js.of_Z a) (Js.of_Z b) = (a <=? b).
Proof.
  unfold Js.le, Js.lt, Js.of_Z, Qle_bool, inject_Z. cbn [Qnum Qden].
  rewrite !Z.mul_1_r, negb_involutive. reflexivity.
Qed.

Lemma digit_value_nonneg (c : N) (d : Z) : Js.digit_value c = Some d → 0 <= d.
Proof.
  unfold Js.digit_value.
  destruct ((48 <=? c)%N && (c <=? 57)%N) eqn:H1.
  { apply andb_true_iff in H1 as [H1 _]. apply N.leb_le in H1. intros [= <-]. lia. }
  destruct ((97 <=? c)%N && (c <=? 122)%N) eqn:H2.
  { apply andb_true_iff in H2 as [H2 _]. apply N.leb_le in H2. intros [= <-]. lia. }
  destruct ((65 <=? c)%N && (c <=? 90)%N) eqn:H3.
  { apply andb_true_iff in H3 as [H3 _]. apply N.leb_le in H3. intros [= <-]. lia. }
  done.
Qed.

Lemma take_digits_nonneg (R : Z) (s : Js.code_units) :
  Forall (fun d => 0 <= d) (Js.take_digits R s).
Proof.
  induction s as [| c s IH]; cbn; [constructor |].
  destruct (Js.digit_value c) as [d |] eqn:Hd; [| constructor].
  destruct (d <? R); [| constructor].
  constructor; [by eapply digit_value_nonneg | done].
Qed.

Lemma digits_value_nonneg (R : Z) (ds : list Z) :
  0 <= R → Forall (fun d => 0 <= d) ds → 0 <= Js.digits_value R ds.
Proof.
  intros HR. unfold Js.digits_value.
  assert (H : ∀ acc, 0 <= acc → Forall (fun d => 0 <= d) ds →
                     0 <= fold_left (fun a d => a * R + d) ds acc).
  { induction ds as [| d ds IH]; intros acc Hacc Hds; [done |].
    inversion Hds; subst. cbn. apply IH; [nia | done]. }
  by apply H.
Qed.

(** Rounding to a double keeps an integer that is at most 0 at most 0. *)
Lemma round_to_double_nonpos (z : Z) :
  z <= 0 → Js.le (Js.round_to_double z) (Js.of_Z 0) = true.
Proof.
  intros Hz. unfold Js.round_to_double. cbv zeta.
  destruct (Z.log2 (Z.abs z) - 52 <=? 0) eqn:He.
  - fold (Js.of_Z z). rewrite le_of_Z. by apply Z.leb_le.
  - assert (Hneg : z < 0).
    { destruct (decide (z = 0)) as [-> | Hne]; [discriminate He | lia]. }
    set (e := Z.log2 (Z.abs z) - 52) in *.
    set (q := Z.shiftr (Z.abs z) e).
    assert (Hq : 0 <= q) by (apply Z.shiftr_nonneg; lia).
    match goal with
    | |- context [Z.shiftl (if ?c then q + 1 else q) e] =>
        set (q' := if c then q + 1 else q);
        assert (Hq' : 0 <= q') by (subst q'; destruct c; lia)
    end.
    assert (Hm : 0 <= Z.shiftl q' e) by (by apply Z.shiftl_nonneg).
    destruct (2 ^ 1024 <=? Z.shiftl q' e).
    + assert (Hlt : (z <? 0) = true) by (by apply Z.ltb_lt).
      by rewrite Hlt.
    + fold (Js.of_Z (Z.sgn z * Z.shiftl q' e)). rewrite le_of_Z.
      apply Z.leb_le. rewrite (Z.sgn_neg z Hneg). lia.
Qed.

(** [parseInt] in radix 10: white space, a sign, then digits. *)
Lemma parseInt_decimal (s : Js.code_units) :
  Js.parseInt s 10 =
    match Js.take_digits 10 (snd (Js.strip_sign (Js.trim_start s))) with
    | [] => Js.NaN
    | ds =>
        Js.round_to_double
          (fst (Js.strip_sign (Js.trim_start s)) * Js.digits_value 10 ds)
    end.
Proof.
  unfold Js.parseInt. by destruct (Js.strip_sign (Js.trim_start s)) as [sign rest].
Qed.

(** What [getCompanyTransactions] returns and the world it leaves, in
    full. *)
Lemma getCompanyTransactions_run
    (svc : CompanyService → Js.number → exn + Js.value)
    (this : t) (request : Request) (w : World) :
  getCompanyTransactions svc this request w =
    let id := Js.parseInt (params_id request) 10 in
    let service := company_service_in w in
    if Js.isNaN id || Js.le id (Js.of_Z 0)
    then (inl invalid_company_id_error, with_company_service w [])
    else match svc service id with
         | inl e => (inl e, with_company_service w [GetCompanyTransactions service id])
         | inr result =>
             (inr tt,
              with_company_service w
                [GetCompanyTransactions service id;
                 WriteObjectResponse (Js.of_Z 200) result])
         end.
Proof.
  unfold getCompanyTransactions, bind, get_response, alloc, on_store, emit, throw,
    with_company_service, company_service_in, invalid_company_id_error.
  cbn -[Js.parseInt Js.le Js.isNaN ClientError.new].
  destruct (Js.isNaN _ || Js.le _ _).
  - cbn. rewrite <- !app_assoc. reflexivity.
  - cbn -[Js.parseInt].
    destruct (svc _ _) as [e | result]; cbn -[Js.parseInt];
      rewrite <- !app_assoc; reflexivity.
Qed.

(** X4. An id with a minus sign is never accepted, whatever follows the
    sign: after optional white space, [-] makes [parseInt] yield [NaN] or
    a value that is at most 0, so the handler throws the 400 error without
    calling the service. *)
Theorem getCompanyTransactions_rejects_minus_sign
    (svc : CompanyService → Js.number → exn + Js.value)
    (this : t) (request : Request) (w : World) (rest : Js.code_units) :
  Js.trim_start (params_id request) = 45%N :: rest →
  fst (getCompanyTransactions svc this request w) = inl invalid_company_id_error
  ∧ service_calls (events (snd (getCompanyTransactions svc this request w)))
    = service_calls (events w).
Proof.
  intros Hminus. rewrite getCompanyTransactions_run. cbn zeta.
  assert (Hbad : Js.isNaN (Js.parseInt (params_id request) 10)
                 || Js.le (Js.parseInt (params_id request) 10) (Js.of_Z 0) = true).
  { rewrite parseInt_decimal, Hminus. cbn [Js.strip_sign fst snd].
    pose proof (digits_value_nonneg 10 (Js.take_digits 10 rest) ltac:(lia)
                  (take_digits_nonneg 10 rest)) as Hv.
    destruct (Js.take_digits 10 rest) as [| d ds]; [reflexivity |].
    rewrite round_to_double_nonpos by lia. apply orb_true_r. }
  rewrite Hbad. cbn. split; [reflexivity |].
  rewrite service_calls_app. cbn. by rewrite app_nil_r.
Qed.

Lemma getCompanyTransactions_rejects_minus_sign_witness :
  fst (getCompanyTransactions (fun _ id => inr (Js.Num id)) sample_router
         (transactions_request (Js.units "  -7")) sample_world)
  = inl invalid_company_id_error.
Proof.
  exact (proj1 (getCompanyTransactions_rejects_minus_sign
                  (fun _ id => inr (Js.Num id)) sample_router
                  (transactions_request (Js.units "  -7")) sample_world
                  (Js.units "7") eq_refl)).
Defined.

Lemma trim_start_app (s junk : Js.code_units) :
  Js.trim_start s ≠ [] → Js.trim_start (s ++ junk) = Js.trim_start s ++ junk.
Proof.
  induction s as [| c s IH]; [done |]. cbn.
  destruct (Js.is_white_space c); [exact IH | done].
Qed.

Lemma strip_sign_other (c : N) (r : Js.code_units) :
  c ≠ 45%N → c ≠ 43%N → Js.strip_sign (c :: r) = (1, c :: r).
Proof.
  intros H45 H43. unfold Js.strip_sign.
  destruct c as [| p]; [done |].
  repeat (destruct p as [p | p |]; try reflexivity; try congruence).
Qed.

Lemma strip_sign_app (s junk : Js.code_units) :
  snd (Js.strip_sign s) ≠ [] →
  Js.strip_sign (s ++ junk) = (fst (Js.strip_sign s), snd (Js.strip_sign s) ++ junk).
Proof.
  destruct s as [| c r]; [done |].
  destruct (decide (c = 45%N)) as [-> | H45]; [done |].
  destruct (decide (c = 43%N)) as [-> | H43]; [done |].
  intros _. rewrite <- app_comm_cons, !strip_sign_other by done. done.
Qed.

Lemma take_digits_app (rest : Js.code_units) (c : N) (junk : Js.code_units) :
  is_decimal_digit c = false →
  Js.take_digits 10 (rest ++ c :: junk) = Js.take_digits 10 rest.
Proof.
  intros Hc. induction rest as [| c' rest IH]; cbn.
  - unfold is_decimal_digit in Hc. destruct (Js.digit_value c); [| done]. by rewrite Hc.
  - destruct (Js.digit_value c'); [| done]. destruct (_ <? 10); [| done]. by rewrite IH.
Qed.

Lemma parseInt_trailing (s : Js.code_units) (c : N) (junk : Js.code_units) :
  is_decimal_digit c = false →
  Js.parseInt s 10 ≠ Js.NaN →
  Js.parseInt (s ++ c :: junk) 10 = Js.parseInt s 10.
Proof.
  intros Hc Hnum. rewrite !parseInt_decimal in *.
  assert (Hrest : snd (Js.strip_sign (Js.trim_start s)) ≠ []).
  { intros E. by rewrite E in Hnum. }
  assert (Htrim : Js.trim_start s ≠ []).
  { intros E. by rewrite E in Hrest. }
  rewrite trim_start_app, strip_sign_app by done. cbn [fst snd].
  by rewrite take_digits_app.
Qed.

Lemma params_id_transactions_request (id : Js.code_units) :
  params_id (transactions_request id) = id.
Proof. unfold params_id, transactions_request. cbn. by rewrite lookup_singleton_eq. Qed.

(** X5. Text after the number is ignored. If an id reads as a number,
    then the same id followed by anything that does not start with a
    decimal digit (as in [2abc], [2.9] or [2/x]) is handled in exactly the
    same way: same outcome, same id passed to the service. *)
Theorem getCompanyTransactions_ignores_trailing_text
    (svc : CompanyService → Js.number → exn + Js.value)
    (this : t) (w : World) (id : Js.code_units) (c : N) (junk : Js.code_units) :
  is_decimal_digit c = false →
  Js.parseInt id 10 ≠ Js.NaN →
  getCompanyTransactions svc this (transactions_request (id ++ c :: junk)) w
  = getCompanyTransactions svc this (transactions_request id) w.
Proof.
  intros Hc Hnum. rewrite !getCompanyTransactions_run. cbn zeta.
  rewrite !params_id_transactions_request. by rewrite parseInt_trailing.
Qed.

Lemma getCompanyTransactions_ignores_trailing_text_witness :
  getCompanyTransactions (fun _ id => inr (Js.Num id)) sample_router
    (transactions_request (Js.units "2/../9")) sample_world
  = getCompanyTransactions (fun _ id => inr (Js.Num id)) sample_router
      (transactions_request (Js.units "2")) sample_world.
Proof.
  apply (getCompanyTransactions_ignores_trailing_text
           (fun _ id => inr (Js.Num id)) sample_router sample_world
           (Js.units "2") 47%N (Js.units "../9")).
  - reflexivity.
  - discriminate.
Defined.

Lemma responses_app (evs evs' : list Event) :
  responses (evs ++ evs') = responses evs ++ responses evs'.
Proof. apply omap_app. Qed.

Lemma constructions_app (evs evs' : list Event) :
  constructions (evs ++ evs') = constructions evs ++ constructions evs'.
Proof. apply omap_app. Qed.

(** X6. A response is written only when the handler succeeds, and then
    exactly one, with status 200 and the result the service gave for the
    double that [parseInt] returned; when it throws, nothing has been
    written. In every case, a rejected id included, it has constructed a
    [JsonFileReader], a [CompanyRepository] and a [CompanyService], in
    this order, on the next three references, and nothing else; it never
    calls [next] and leaves the store and [response.locals] alone. *)
Theorem getCompanyTransactions_writes_on_success_only
    (svc : CompanyService → Js.number → exn + Js.value)
    (this : t) (request : Request) (w : World) :
  let out := getCompanyTransactions svc this request w in
  let id := Js.parseInt (params_id request) 10 in
  match fst out with
  | inr _ =>
      ∃ result,
        svc (company_service_in w) id = inr result
        ∧ responses (events (snd out)) = responses (events w) ++ [(Js.of_Z 200, result)]
  | inl _ => responses (events (snd out)) = responses (events w)
  end
  ∧ next_calls (events (snd out)) = next_calls (events w)
  ∧ constructions (events (snd out))
    = constructions (events w)
      ++ [(JsonFileReaderClass, next_ref w);
          (CompanyRepositoryClass, S (next_ref w));
          (CompanyServiceClass, S (S (next_ref w)))]
  ∧ next_ref (snd out) = S (S (S (next_ref w)))
  ∧ store (snd out) = store w
  ∧ response (snd out) = response w.
Proof.
  intros out id. subst out. rewrite getCompanyTransactions_run. cbn zeta. fold id.
  destruct (Js.isNaN id || Js.le id (Js.of_Z 0)); cbn.
  - rewrite responses_app, next_calls_app, constructions_app. cbn.
    by rewrite !app_nil_r.
  - destruct (svc (company_service_in w) id) as [e | result] eqn:Hsvc; cbn;
      rewrite responses_app, next_calls_app, constructions_app; cbn;
      rewrite ?app_nil_r; [done |].
    split; [| done]. by exists result.
Qed.

Example getCompanyTransactions_writes_for_the_double :
  responses
    (events (snd (getCompanyTransactions (fun _ id => inr (Js.Num id)) sample_router
                    (transactions_request (Js.units "9007199254740993")) sample_world)))
  = [(Js.of_Z 200, Js.Num (Js.of_Z 9007199254740992))].
Proof. vm_compute. reflexivity. Qed.

Section Chains.

Variable authorize :
  Authorizer → Request → ClaimsCache.t → IssuerMetadata.Net →
  (exn + ClaimsPrincipal) * ClaimsCache.t * IssuerMetadata.Net.

(** What [authorizationHandler] returns and the world it leaves, in
    full, when the router's two collaborators are there. *)
Lemma authorizationHandler_run
    (this : t) (request : Request) (w : World)
    (m : IssuerMetadata.t) (c : ClaimsCache.t) :
  metas (store w) !! _issuerMetadata this = Some m →
  caches (store w) !! _claimsCache this = Some c →
  authorizationHandler authorize this request w =
    let a := authorizer_in this m w in
    let '(r, c', n') := authorize a request c (net (store w)) in
    let constructed :=
      [New AuthenticatorClass (next_ref w);
       New SampleCustomClaimsProviderClass (S (next_ref w));
       New AuthorizerClass (S (S (next_ref w)));
       Authorize a request] in
    let st := {| caches := <[_claimsCache this := c']> (caches (store w));
                 metas := metas (store w);
                 net := n' |} in
    match r with
    | inl e =>
        (inl e,
         {| next_ref := S (S (S (next_ref w)));
            events := events w ++ constructed;
            store := st;
            response := response w |})
    | inr claims =>
        (inr tt,
         {| next_ref := S (S (S (next_ref w)));
            events := events w ++ constructed ++ [Next {| locals_claims := Some claims |}];
            store := st;
            response := {| locals_claims := Some claims |} |})
    end.
Proof.
  intros Hm Hc.
  unfold authorizationHandler, Authorizer_authorizeRequestAndGetClaims,
    IssuerMetadata_issuer, bind, alloc, emit, on_store, set_response, get_response.
  cbn. rewrite Hm. cbn. rewrite Hc. fold (authorizer_in this m w).
  destruct (authorize (authorizer_in this m w) request c (net (store w)))
    as [[[e | claims] c'] n']; cbn; rewrite <- !app_assoc; reflexivity.
Qed.

(** X7. The authorization handler chained with the transactions
    controller. If authorization throws, the request ends there: the
    company service is not called and no response is written. If it
    returns claims, the company service that is called was constructed
    with exactly those claims. *)
Theorem authorized_claims_reach_company_service
    (svc : CompanyService → Js.number → exn + Js.value)
    (this : t) (request : Request) (w : World)
    (m : IssuerMetadata.t) (c : ClaimsCache.t) :
  metas (store w) !! _issuerMetadata this = Some m →
  caches (store w) !! _claimsCache this = Some c →
  let out := authorized (authorizationHandler authorize this request)
               (getCompanyTransactions svc this request) w in
  let id := Js.parseInt (params_id request) 10 in
  match fst (fst (authorize (authorizer_in this m w) request c (net (store w)))) with
  | inl e =>
      fst out = inl e
      ∧ service_calls (events (snd out)) = service_calls (events w)
      ∧ responses (events (snd out)) = responses (events w)
  | inr claims =>
      served_claims (events (snd out))
      = served_claims (events w)
        ++ (if Js.isNaN id || Js.le id (Js.of_Z 0) then [] else [Some claims])
  end.
Proof.
  intros Hm Hc out id. subst out. unfold authorized, bind.
  rewrite (authorizationHandler_run this request w m c Hm Hc). cbn zeta.
  destruct (authorize (authorizer_in this m w) request c (net (store w)))
    as [[[e | claims] c'] n']; cbn [fst snd].
  - cbn [events]. rewrite service_calls_app, responses_app. cbn.
    by rewrite !app_nil_r.
  - rewrite getCompanyTransactions_run. cbn zeta. fold id.
    unfold served_claims.
    destruct (Js.isNaN id || Js.le id (Js.of_Z 0)).
    + cbn [snd events with_company_service]. rewrite !service_calls_app. cbn.
      by rewrite !app_nil_r.
    + destruct (svc _ id) as [e | result]; cbn [snd events with_company_service];
        rewrite !service_calls_app; cbn [service_calls omap app];
        rewrite ?app_nil_r, !map_app; cbn; rewrite ?app_nil_r; done.
Qed.

(** Each request adds at most one call of [next], and only with claims
    attached. *)
Lemma handle_next (this : t) (request : Request) (w : World) :
  ∃ l, next_calls (events (handle authorize this request w)) = next_calls (events w) ++ l
       ∧ Forall (fun r => is_Some (locals_claims r)) l
       ∧ (length l <= 1)%nat.
Proof.
  unfold handle, authorizationHandler, Authorizer_authorizeRequestAndGetClaims,
    IssuerMetadata_issuer, bind, alloc, emit, on_store, set_response, get_response.
  cbn.
  destruct (metas (store w) !! _issuerMetadata this) as [m |]; cbn.
  2: { exists []. rewrite app_nil_r. repeat split; [constructor | cbn; lia]. }
  destruct (caches (store w) !! _claimsCache this) as [c |]; cbn.
  2: { exists []. rewrite !next_calls_app. cbn. rewrite !app_nil_r.
       repeat split; [constructor | cbn; lia]. }
  destruct (authorize _ request c (net (store w))) as [[[e | claims] c'] n']; cbn.
  - exists []. rewrite !next_calls_app. cbn. rewrite !app_nil_r.
    repeat split; [constructor | cbn; lia].
  - exists [{| locals_claims := Some claims |}]. rewrite !next_calls_app. cbn.
    rewrite !app_nil_r. repeat split; [| cbn; lia].
    constructor; [by eexists | constructor].
Qed.

(** X8. Whatever the requests and whatever state the world is in, the
    downstream handler is never entered without claims: every call of
    [next] made while serving finds claims in [response.locals], and
    there is at most one such call per request. *)
Theorem serve_calls_next_only_with_claims
    (this : t) (requests : list Request) (w : World) :
  ∃ l, next_calls (events (serve authorize this requests w)) = next_calls (events w) ++ l
       ∧ Forall (fun r => is_Some (locals_claims r)) l
       ∧ (length l <= length requests)%nat.
Proof.
  revert w. induction requests as [| request requests IH]; intros w.
  - exists []. rewrite app_nil_r. repeat split; [constructor | done].
  - cbn [serve fold_left].
    destruct (handle_next this request w) as (l1 & H1 & Hc1 & Hn1).
    destruct (IH (handle authorize this request w)) as (l2 & H2 & Hc2 & Hn2).
    exists (l1 ++ l2). unfold serve in H2. rewrite H2, H1, <- app_assoc.
    repeat split; [by apply Forall_app | rewrite length_app; cbn; lia].
Qed.

End Chains.

Lemma authorized_claims_reach_company_service_witness :
  served_claims
    (events (snd (authorized
                    (authorizationHandler sample_authorize sample_router sample_request)
                    (getCompanyTransactions (fun _ id => inr (Js.Num id))
                       sample_router sample_request) sample_world)))
  = [Some (sample_principal 100)].
Proof.
  exact (authorized_claims_reach_company_service sample_authorize
           (fun _ id => inr (Js.Num id)) sample_router sample_request sample_world
           (IssuerMetadata.new sample_oauth) (ClaimsCache.new sample_oauth)
           eq_refl eq_refl).
Defined.

Section Lists.

Import RouterLists.

Variable list_service : CompanyService → exn + Js.value.

(** X9. [getCompanyList] reads neither the request nor the router: it
    constructs a company service with the claims of the response, and
    either writes the one response, with status 200 and the service's
    result, or throws the service's error having written nothing. *)
Theorem getCompanyList_writes_service_result
    (this : t) (request : Request) (w : World) :
  let out := getCompanyList list_service this request w in
  (∀ this' request', getCompanyList list_service this' request' w = out)
  ∧ match list_service (company_service_in w) with
    | inr result =>
        fst out = inr tt
        ∧ responses (events (snd out)) = responses (events w) ++ [(Js.of_Z 200, result)]
    | inl e =>
        fst out = inl e
        ∧ responses (events (snd out)) = responses (events w)
    end
  ∧ next_calls (events (snd out)) = next_calls (events w)
  ∧ store (snd out) = store w
  ∧ response (snd out) = response w.
Proof.
  intros out. subst out. split; [done |].
  unfold getCompanyList, bind, get_response, alloc, on_store, emit. cbn.
  fold (company_service_in w).
  destruct (list_service (company_service_in w)) as [e | result]; cbn;
    rewrite !responses_app, !next_calls_app; cbn; rewrite ?app_nil_r; done.
Qed.

End Lists.

End RouterRuns.

(** ** Properties of the single-page application *)

Section AppFacts.

Import App.

Variable X : Type.
Variable env : Call → string → X → (exn + unit) * string * X.

Local Abbreviation quiet := (never_throws env).

Lemma reports_snoc (cs : list Call) (c : Call) :
  reports (cs ++ [c]) =
    reports cs ++ match c with ErrorView_report e => [e] | _ => [] end.
Proof. unfold reports. rewrite omap_app. by destruct c. Qed.

Lemma console_snoc (cs : list Call) (c : Call) :
  console (cs ++ [c]) =
    console cs ++ match c with ErrorConsoleReporter_output e => [e] | _ => [] end.
Proof. unfold console. rewrite omap_app. by destruct c. Qed.

Lemma sessions_enabled_snoc (cs : list Call) (c : Call) :
  sessions_enabled (cs ++ [c]) =
    match button c with Some b => b | None => sessions_enabled cs end.
Proof.
  unfold sessions_enabled. rewrite omap_app. cbn.
  destruct (button c) as [b |]; cbn; [by rewrite last_snoc | by rewrite app_nil_r].
Qed.

Lemma api_calls_snoc (cs : list Call) (c : Call) :
  api_calls (cs ++ [c]) = api_calls cs ++ (if is_api_call c then [c] else []).
Proof. unfold api_calls. rewrite List.filter_app. cbn. by destruct (is_api_call c). Qed.

(** Case analysis along a run: on the outcome of the next collaborator
    call, discarding what a [quiet] hypothesis rules out, on whether a
    field is set, on a flag. *)
Ltac next_call :=
  match goal with
  | |- context [env ?c ?hash ?page] =>
      let E := fresh "E" in
      let e := fresh "e" in
      let h := fresh "h" in
      let x := fresh "x" in
      destruct (env c hash page) as [[[e | []] h] x] eqn:E;
      try match goal with
        | Q : never_throws env c |- _ =>
            let Q' := fresh in
            pose proof (Q hash page) as Q'; rewrite E in Q'; discriminate Q'
        end
  end.

Ltac next_test :=
  match goal with
  | |- context [match ?o with Some _ => _ | None => _ end] => destruct o as [[] |] eqn:?
  | |- context [if ?b then _ else _] => destruct b eqn:?
  end.

Ltac unfold_app :=
  unfold callback, execute, _initialRender,
    _onReloadData, _onHome, _onHashChange, _onLogout, _onExpireAccessToken,
    _onExpireRefreshToken, _initialiseApp, _handleLoginResponse, listen_for_hash_changes,
    _loadMainView, _loadUserInfo, construct, via, call, try_catch, and_then,
    update, get_app, get_hash, raise, pure, assign_hash; cbn.

Ltac absurd_field :=
  match goal with
  | H : is_Some None |- _ => by destruct H
  | H : ?x = Some _, H' : ?x = None |- _ => by rewrite H in H'
  | H : ?b = true, H' : ?b = false |- _ => by rewrite H in H'
  end.

Ltac recall :=
  repeat match goal with
    | H : ?t = true |- context [?t] => rewrite H
    | H : ?t = false |- context [?t] => rewrite H
    | H : ?t = Some _ |- context [?t] => rewrite H
    | H : ?t = None |- context [?t] => rewrite H
    end.

Ltac flags :=
  repeat match goal with
    | H : context [_isInitialised (app ?s)] |- _ =>
        destruct (_isInitialised (app s)); cbn in *; try discriminate
    | H : context [_mainViewLoaded (app ?s)] |- _ =>
        destruct (_mainViewLoaded (app s)); cbn in *; try discriminate
    | H : context [_userInfoLoaded (app ?s)] |- _ =>
        destruct (_userInfoLoaded (app s)); cbn in *; try discriminate
    end.

Ltac leaf :=
  cbn in *; try absurd_field; flags;
  rewrite ?reports_snoc, ?console_snoc, ?api_calls_snoc, ?sessions_enabled_snoc;
  cbn; rewrite ?app_nil_r; recall; cbn; rewrite ?andb_false_r, ?andb_true_r;
  repeat split; try done.

Ltac run_app := unfold_app; repeat (first [next_call | next_test]; cbn in * ); leaf.

Lemma loadMainView_frame (s : Page X) :
  let out := _loadMainView env s in
  app (snd out) = set_flag MainViewLoaded (ok (fst out)) (app s)
  ∧ onhashchange (snd out) = onhashchange s
  ∧ reports (calls (snd out)) = reports (calls s)
  ∧ console (calls (snd out)) = console (calls s).
Proof. run_app. Qed.

Lemma loadUserInfo_frame (s : Page X) :
  let out := _loadUserInfo env s in
  app (snd out) = set_flag UserInfoLoaded (ok (fst out)) (app s)
  ∧ onhashchange (snd out) = onhashchange s
  ∧ reports (calls (snd out)) = reports (calls s)
  ∧ console (calls (snd out)) = console (calls s).
Proof. run_app. Qed.

(** X10. After [_loadMainView], [_mainViewLoaded] says whether this load
    succeeded, whatever it said before and whatever went wrong (a missing
    view, a failing call): the method throws exactly when it leaves the
    flag false. It changes no other field, and reports nothing itself. *)
Theorem loadMainView_flag_is_outcome (s : Page X) :
  let out := _loadMainView env s in
  _mainViewLoaded (app (snd out)) = ok (fst out)
  ∧ app (snd out) = set_flag MainViewLoaded (ok (fst out)) (app s)
  ∧ reports (calls (snd out)) = reports (calls s)
  ∧ console (calls (snd out)) = console (calls s).
Proof.
  intros out. destruct (loadMainView_frame s) as (Happ & _ & Hr & Hc).
  fold out in Happ, Hr, Hc. by rewrite Happ.
Qed.

(** X11. After [_loadUserInfo], [_userInfoLoaded] says whether this load
    succeeded; the method throws exactly when it leaves the flag false,
    changes no other field, and reports nothing itself. *)
Theorem loadUserInfo_flag_is_outcome (s : Page X) :
  let out := _loadUserInfo env s in
  _userInfoLoaded (app (snd out)) = ok (fst out)
  ∧ app (snd out) = set_flag UserInfoLoaded (ok (fst out)) (app s)
  ∧ reports (calls (snd out)) = reports (calls s)
  ∧ console (calls (snd out)) = console (calls s).
Proof.
  intros out. destruct (loadUserInfo_frame s) as (Happ & _ & Hr & Hc).
  fold out in Happ, Hr, Hc. by rewrite Happ.
Qed.

Lemma loadMainView_buttons (s : Page X) :
  quiet HeaderButtonsView_disableSessionButtons →
  quiet HeaderButtonsView_enableSessionButtons →
  is_Some (_headerButtonsView (app s)) →
  buttons_follow_flags (snd (_loadMainView env s)).
Proof. intros Qd Qe Hhb. unfold buttons_follow_flags. run_app. Qed.

Lemma loadUserInfo_buttons (s : Page X) :
  quiet HeaderButtonsView_disableSessionButtons →
  quiet HeaderButtonsView_enableSessionButtons →
  is_Some (_headerButtonsView (app s)) →
  buttons_follow_flags (snd (_loadUserInfo env s)).
Proof. intros Qd Qe Hhb. unfold buttons_follow_flags. run_app. Qed.

(** X12. Provided the two button calls themselves do not throw: after
    either load, successful or not, the last call made to the session
    buttons is [enableSessionButtons] exactly when both the main view and
    the user info are loaded. *)
Theorem load_enables_buttons_iff_both_loaded (s : Page X) :
  quiet HeaderButtonsView_disableSessionButtons →
  quiet HeaderButtonsView_enableSessionButtons →
  is_Some (_headerButtonsView (app s)) →
  (let s' := snd (_loadMainView env s) in
   sessions_enabled (calls s') = _mainViewLoaded (app s') && _userInfoLoaded (app s'))
  ∧ (let s' := snd (_loadUserInfo env s) in
     sessions_enabled (calls s') = _mainViewLoaded (app s') && _userInfoLoaded (app s')).
Proof.
  intros Qd Qe Hhb. split.
  - apply (loadMainView_buttons s Qd Qe Hhb).
  - apply (loadUserInfo_buttons s Qd Qe Hhb).
Qed.

(** X13. [_onReloadData], when the error view is there and reporting
    does not throw: it never throws; it reports no error exactly when it
    leaves both views loaded, and one error otherwise; and when the main
    view fails to load, the user info is not asked for. *)
Theorem onReloadData_reports_failures (s : Page X) :
  (∀ e, quiet (ErrorView_report e)) →
  is_Some (_errorView (app s)) →
  let out := _onReloadData env s in
  let loaded := _mainViewLoaded (app (snd out)) && _userInfoLoaded (app (snd out)) in
  fst out = inr tt
  ∧ (∃ l, reports (calls (snd out)) = reports (calls s) ++ l
          ∧ length l = if loaded then 0%nat else 1%nat)
  ∧ (_mainViewLoaded (app (snd out)) = false →
     api_calls (calls (snd out)) = api_calls (calls s)
     ∨ api_calls (calls (snd out)) = api_calls (calls s) ++ [Router_loadView]).
Proof.
  intros Qr Hev.
  assert (Qr' : ∀ e h x, fst (fst (env (ErrorView_report e) h x)) = inr tt)
    by (intros e; apply Qr).
  unfold_app.
  repeat (first [next_call | next_test]; cbn in * );
    try (match goal with
         | E : env (ErrorView_report ?e) ?h ?x = (inl _, _, _) |- _ =>
             pose proof (Qr' e h x) as Q'; rewrite E in Q'; discriminate Q'
         end);
    leaf;
    try (by eexists []; rewrite app_nil_r);
    try (by eexists [_]);
    try (by left); try (by right).
Qed.

(** The outcomes excluded by a hypothesis that no report (or no console
    output) throws. *)
Ltac no_throw Q :=
  try match goal with
    | E : env ?c ?h ?x = (inl _, _, _) |- _ =>
        let Q' := fresh in
        pose proof (Q _ h x : fst (fst (env c h x)) = inr tt) as Q';
        rewrite E in Q'; discriminate Q'
    end.

Ltac run_app_with Q :=
  unfold_app; repeat (first [next_call | next_test]; cbn in * ); no_throw Q; leaf.

(** X15. [_onHome] on an application that is initialised with both views
    loaded makes no call at all: it only moves to the home view (the hash
    then reads as empty). *)
Theorem onHome_when_loaded_only_navigates (s : Page X) :
  _isInitialised (app s) = true →
  _mainViewLoaded (app s) = true →
  _userInfoLoaded (app s) = true →
  _onHome env s =
    (inr tt,
     {| app := app s; location_hash := ""; onhashchange := onhashchange s;
        calls := calls s; outside := outside s |}).
Proof.
  intros Hi Hm Hu. unfold_app. do 3 (recall; cbn). reflexivity.
Qed.

(** X17. [_onHashChange] once the trace listener and the error view
    exist, if neither reporting nor the log-level update throws: it never
    throws; while the application is not initialised it loads nothing and
    reports nothing; once initialised it reports exactly when the main
    view fails to load. *)
Theorem onHashChange_loads_when_initialised (s : Page X) :
  (∀ e, quiet (ErrorView_report e)) →
  quiet TraceListener_updateLogLevelIfRequired →
  is_Some (_traceListener (app s)) →
  is_Some (_errorView (app s)) →
  let out := _onHashChange env s in
  fst out = inr tt
  ∧ (if _isInitialised (app s)
     then ∃ l, reports (calls (snd out)) = reports (calls s) ++ l
               ∧ length l = if _mainViewLoaded (app (snd out)) then 0%nat else 1%nat
     else app (snd out) = app s
          ∧ calls (snd out) = calls s ++ [TraceListener_updateLogLevelIfRequired]).
Proof.
  intros Qr Qt Htl Hev.
  run_app_with Qr;
    try (by eexists []; rewrite app_nil_r);
    try (by eexists [_]).
Qed.

(** X18. [_onLogout], if writing to the console does not throw: it never
    throws, never uses the error view and changes no field. If the logout
    starts, that call is all it makes. If it cannot be started, because
    [startLogout] throws or there is no authenticator, the error it caught
    is written to the console and the page moves to [#/loggedout]. *)
Theorem onLogout_falls_back_to_logged_out (s : Page X) :
  (∀ e, quiet (ErrorConsoleReporter_output e)) →
  let out := _onLogout env s in
  fst out = inr tt
  ∧ app (snd out) = app s
  ∧ reports (calls (snd out)) = reports (calls s)
  ∧ match _authenticator (app s) with
    | Some _ =>
        match env Authenticator_startLogout (location_hash s) (outside s) with
        | (inr _, hash, _) =>
            calls (snd out) = calls s ++ [Authenticator_startLogout]
            ∧ location_hash (snd out) = hash
        | (inl e, _, _) =>
            calls (snd out)
            = calls s ++ [Authenticator_startLogout; ErrorConsoleReporter_output e]
            ∧ location_hash (snd out) = "#/loggedout"
            ∧ not_logged_out (location_hash (snd out)) = false
        end
    | None =>
        calls (snd out) = calls s ++ [ErrorConsoleReporter_output type_error]
        ∧ location_hash (snd out) = "#/loggedout"
        ∧ not_logged_out (location_hash (snd out)) = false
    end.
Proof.
  intros Qc.
  run_app_with Qc; rewrite <- ?app_assoc; done.
Qed.


Example initialiseApp_keeps_what_it_created :
  let out := _initialiseApp
               (fun c h x => match c with
                             | New_ApiClient => (inl (Classified ServerError), h, x)
                             | _ => (inr tt, h, x)
                             end) blank in
  fst out = inl (Classified ServerError)
  ∧ _isInitialised (app (snd out)) = false
  ∧ _configuration (app (snd out)) = Some tt
  ∧ _authenticator (app (snd out)) = Some tt
  ∧ _traceListener (app (snd out)) = Some tt
  ∧ _apiClient (app (snd out)) = None
  ∧ _router (app (snd out)) = None.
Proof. vm_compute. repeat split. Qed.

Lemma initialRender_frame (s : Page X) :
  let out := _initialRender env s in
  _isInitialised (app (snd out)) = _isInitialised (app s)
  ∧ _mainViewLoaded (app (snd out)) = _mainViewLoaded (app s)
  ∧ _userInfoLoaded (app (snd out)) = _userInfoLoaded (app s)
  ∧ onhashchange (snd out) = onhashchange s
  ∧ reports (calls (snd out)) = reports (calls s)
  ∧ api_calls (calls (snd out)) = api_calls (calls s).
Proof. run_app. Qed.

Lemma initialiseApp_frame (s : Page X) :
  let out := _initialiseApp env s in
  _isInitialised (app (snd out)) = ok (fst out) || _isInitialised (app s)
  ∧ _mainViewLoaded (app (snd out)) = _mainViewLoaded (app s)
  ∧ _userInfoLoaded (app (snd out)) = _userInfoLoaded (app s)
  ∧ _headerButtonsView (app (snd out)) = _headerButtonsView (app s)
  ∧ _errorView (app (snd out)) = _errorView (app s)
  ∧ onhashchange (snd out) = onhashchange s
  ∧ reports (calls (snd out)) = reports (calls s)
  ∧ api_calls (calls (snd out)) = api_calls (calls s)
  ∧ sessions_enabled (calls (snd out)) = sessions_enabled (calls s).
Proof. run_app. Qed.

Lemma handleLoginResponse_frame (s : Page X) :
  let out := _handleLoginResponse env s in
  app (snd out) = app s
  ∧ onhashchange (snd out) = onhashchange s
  ∧ reports (calls (snd out)) = reports (calls s)
  ∧ api_calls (calls (snd out)) = api_calls (calls s).
Proof. run_app. Qed.

Ltac keep :=
  cbn [fst snd app calls onhashchange location_hash outside ok orb andb negb] in *.

(** The next method in a sequence, with what its frame lemma says. *)
Ltac after m lemma :=
  match goal with
  | |- context [m ?s] =>
      let H := fresh "H" in
      let e := fresh "e" in
      let s' := fresh "s" in
      pose proof (lemma s) as H; cbv zeta in H;
      destruct (m s) as [[e | []] s']; keep
  end.

Ltac unpack :=
  repeat match goal with
    | H : _ ∧ _ |- _ => destruct H
    end;
  repeat match goal with
    | H : app ?s' = _ |- _ => rewrite H in *
    end;
  cbn [set_flag _isInitialised _mainViewLoaded _userInfoLoaded _headerButtonsView
       _errorView _traceListener orb andb] in *.

(** The catch of [execute]: report, if there is an error view. *)
Ltac report Qr :=
  unfold call, pure; keep;
  repeat match goal with
    | |- context [match _errorView ?a with _ => _ end] =>
        destruct (_errorView a) as [[] |]; keep
    | |- context [env (ErrorView_report ?e) ?h ?x] =>
        let E := fresh "E" in
        let Q := fresh "Q" in
        pose proof (Qr e h x) as Q;
        destruct (env (ErrorView_report e) h x) as [[[? | []] ?] ?] eqn:E;
        [discriminate Q |]; keep
    end;
  rewrite ?reports_snoc, ?api_calls_snoc; cbn [is_api_call app]; rewrite ?app_nil_r.

Ltac close :=
  keep; unpack; repeat split;
  try congruence;
  try match goal with
    | |- _ ++ [?e] = _ ∨ _ => right; exists e; congruence
    | |- _ ∨ _ => left; congruence
    end.

(** X20. [execute], if reporting does not throw: it never throws, whatever
    fails on the way and even before the error view exists; it installs
    the hash-change handler; it reports at most one error; and if it
    leaves the application uninitialised, no API data was asked for. *)
Theorem execute_never_throws (s : Page X) :
  (∀ e, quiet (ErrorView_report e)) →
  let out := execute env s in
  fst out = inr tt
  ∧ onhashchange (snd out) = true
  ∧ (reports (calls (snd out)) = reports (calls s)
     ∨ ∃ e, reports (calls (snd out)) = reports (calls s) ++ [e])
  ∧ (_isInitialised (app (snd out)) = false →
     api_calls (calls (snd out)) = api_calls (calls s)).
Proof.
  intros Qr out. subst out.
  unfold execute, try_catch, and_then, listen_for_hash_changes, get_hash, get_app.
  after (_initialRender env) initialRender_frame; [report Qr; close |].
  after (_initialiseApp env) initialiseApp_frame; [report Qr; close |].
  after (_handleLoginResponse env) handleLoginResponse_frame; [report Qr; close |].
  after (_loadMainView env) loadMainView_frame; [report Qr; close |].
  unfold pure.
  destruct (not_logged_out (location_hash _)); [| close].
  after (_loadUserInfo env) loadUserInfo_frame; [report Qr; close | close].
Qed.

Lemma execute_installs_handler (s : Page X) :
  onhashchange (snd (execute env s)) = true.
Proof.
  assert (Hcatch : ∀ e s',
             onhashchange
               (snd ((match _errorView (app s') with
                      | Some _ => call X env (ErrorView_report e)
                      | None => pure X tt
                      end) s'))
             = onhashchange s').
  { intros e s'. destruct (_errorView (app s')); [| done].
    unfold call. by destruct (env _ _ _) as [[r h] x]. }
  unfold execute, try_catch, and_then, listen_for_hash_changes, get_hash, get_app.
  after (_initialRender env) initialRender_frame;
    [rewrite Hcatch; unpack; congruence |].
  after (_initialiseApp env) initialiseApp_frame;
    [rewrite Hcatch; unpack; congruence |].
  after (_handleLoginResponse env) handleLoginResponse_frame;
    [rewrite Hcatch; unpack; congruence |].
  after (_loadMainView env) loadMainView_frame;
    [rewrite Hcatch; unpack; congruence |].
  unfold pure.
  destruct (not_logged_out (location_hash _)); [| keep; unpack; congruence].
  after (_loadUserInfo env) loadUserInfo_frame;
    [rewrite Hcatch; unpack; congruence | unpack; congruence].
Qed.

(** X16. [execute] installs the hash-change handler whatever happens
    next, so also when it ends without a trace listener (the listener is
    created inside [_initialiseApp], which may fail or never be reached).
    On the page [execute] leaves in that case the handler is installed,
    and [_onHashChange] throws a [TypeError] from outside its [try]: the
    error is not reported and nothing changes. *)
Theorem onHashChange_before_trace_listener (s : Page X) :
  _traceListener (app (snd (execute env s))) = None →
  onhashchange (snd (execute env s)) = true
  ∧ _onHashChange env (snd (execute env s)) = (inl type_error, snd (execute env s)).
Proof.
  intros Htl. split; [apply execute_installs_handler |].
  unfold _onHashChange, and_then, via. cbn [field]. by rewrite Htl.
Qed.

Lemma report_spec (e : exn) (s : Page X) :
  (∀ e, quiet (ErrorView_report e)) →
  is_Some (_errorView (app s)) →
  let out := via X env F_errorView (ErrorView_report e) s in
  fst out = inr tt
  ∧ app (snd out) = app s
  ∧ onhashchange (snd out) = onhashchange s
  ∧ reports (calls (snd out)) = reports (calls s) ++ [e]
  ∧ api_calls (calls (snd out)) = api_calls (calls s)
  ∧ sessions_enabled (calls (snd out)) = sessions_enabled (calls s).
Proof. intros Qr Hev. run_app_with Qr. Qed.

(** The catch of a callback: the error goes to the error view, which is
    there. *)
Ltac caught Qr :=
  match goal with
  | |- context [via X env F_errorView (ErrorView_report ?e) ?s'] =>
      let Hv := fresh "Hv" in
      let H := fresh "H" in
      let r := fresh "r" in
      let s'' := fresh "s" in
      assert (Hv : is_Some (_errorView (app s'))) by (unpack; exists tt; congruence);
      pose proof (report_spec e s' Qr Hv) as H; cbv zeta in H;
      destruct (via X env F_errorView (ErrorView_report e) s') as [r s''];
      keep; destruct H as [-> H]
  end.

Ltac test :=
  match goal with
  | |- context [if negb (?f (app ?s')) then _ else _] => destruct (f (app s')) eqn:?
  | |- context [if ?f (app ?s') then _ else _] => destruct (f (app s')) eqn:?
  end.

Ltac drive Qr :=
  repeat (keep;
          first [ after (_initialiseApp env) initialiseApp_frame
                | after (_loadMainView env) loadMainView_frame
                | after (_loadUserInfo env) loadUserInfo_frame
                | caught Qr
                | progress unpack
                | test ]).

Ltac chase :=
  cbn [ok orb andb negb] in *;
  repeat match goal with
    | H : ?f (app ?s') = _ |- context [?f (app ?s')] => rewrite H
    end;
  cbn [orb andb negb].

Ltac verdict :=
  first
    [ discriminate
    | keep; unpack; chase;
      split; [reflexivity |];
      first [ left; split; [reflexivity | congruence]
            | right; split; [reflexivity
                            | eexists; etransitivity; [eassumption | f_equal; congruence] ] ] ].

(** X14. [_onHome], when the error view is there and reporting does not
    throw: it never throws, and it reports no error exactly when it
    leaves the application initialised with both views loaded; otherwise
    it reports one. *)
Theorem onHome_recovers_or_reports (s : Page X) :
  (∀ e, quiet (ErrorView_report e)) →
  is_Some (_errorView (app s)) →
  let out := _onHome env s in
  let recovered :=
    _isInitialised (app (snd out)) && _mainViewLoaded (app (snd out))
    && _userInfoLoaded (app (snd out)) in
  fst out = inr tt
  ∧ (recovered = true ∧ reports (calls (snd out)) = reports (calls s)
     ∨ recovered = false ∧ ∃ e, reports (calls (snd out)) = reports (calls s) ++ [e]).
Proof.
  intros Qr [[] Hev] out recovered. subst recovered out.
  unfold _onHome, try_catch, and_then, get_app, assign_hash, pure.
  drive Qr.
  all: verdict.
Qed.

(** *** The session buttons *)

Lemma call_keeps_buttons (c : Call) (s : Page X) :
  button c = None →
  buttons_follow_flags s → buttons_follow_flags (snd (call X env c s)).
Proof.
  intros Hc [Hhb Hs]. unfold buttons_follow_flags, call.
  destruct (env c (location_hash s) (outside s)) as [[r h] x]. cbn.
  by rewrite sessions_enabled_snoc, Hc.
Qed.

Lemma via_keeps_buttons (f : Field) (c : Call) (s : Page X) :
  button c = None →
  buttons_follow_flags s → buttons_follow_flags (snd (via X env f c s)).
Proof.
  intros Hc I. unfold via. destruct (field f (app s)); [| exact I].
  by apply call_keeps_buttons.
Qed.

Lemma initialiseApp_keeps_buttons (s : Page X) :
  buttons_follow_flags s → buttons_follow_flags (snd (_initialiseApp env s)).
Proof.
  intros [Hhb Hs]. destruct (initialiseApp_frame s) as (_ & Hm & Hu & Hh & _ & _ & _ & _ & He).
  unfold buttons_follow_flags. by rewrite Hm, Hu, Hh, He.
Qed.

Lemma assign_hash_keeps_buttons (v : string) (s : Page X) :
  buttons_follow_flags s → buttons_follow_flags (snd (assign_hash X v s)).
Proof. done. Qed.

Section Buttons.

Hypothesis Qd : quiet HeaderButtonsView_disableSessionButtons.
Hypothesis Qe : quiet HeaderButtonsView_enableSessionButtons.

Lemma loadMainView_keeps_buttons (s : Page X) :
  buttons_follow_flags s → buttons_follow_flags (snd (_loadMainView env s)).
Proof. intros [Hhb _]. by apply loadMainView_buttons. Qed.

Lemma loadUserInfo_keeps_buttons (s : Page X) :
  buttons_follow_flags s → buttons_follow_flags (snd (_loadUserInfo env s)).
Proof. intros [Hhb _]. by apply loadUserInfo_buttons. Qed.

(** The next step of a callback, which keeps the buttons in step with
    the flags. *)
Ltac kept :=
  keep;
  match goal with
  | I : buttons_follow_flags ?s' |- context [_loadMainView env ?s'] =>
      apply loadMainView_keeps_buttons in I;
      destruct (_loadMainView env s') as [[? | []] ?]
  | I : buttons_follow_flags ?s' |- context [_loadUserInfo env ?s'] =>
      apply loadUserInfo_keeps_buttons in I;
      destruct (_loadUserInfo env s') as [[? | []] ?]
  | I : buttons_follow_flags ?s' |- context [_initialiseApp env ?s'] =>
      apply initialiseApp_keeps_buttons in I;
      destruct (_initialiseApp env s') as [[? | []] ?]
  | I : buttons_follow_flags ?s' |- context [assign_hash X ?v ?s'] =>
      apply (assign_hash_keeps_buttons v) in I;
      destruct (assign_hash X v s') as [[? | []] ?]
  | I : buttons_follow_flags ?s' |- context [via X env ?f ?c ?s'] =>
      apply (via_keeps_buttons f c s' eq_refl) in I;
      destruct (via X env f c s') as [[? | []] ?]
  | I : buttons_follow_flags ?s' |- context [call X env ?c ?s'] =>
      apply (call_keeps_buttons c s' eq_refl) in I;
      destruct (call X env c s') as [[? | []] ?]
  | |- context [if negb (?f (app ?s')) then _ else _] => destruct (f (app s'))
  | |- context [if ?f (app ?s') then _ else _] => destruct (f (app s'))
  end.

Lemma callback_keeps_buttons (c : Callback) (s : Page X) :
  buttons_follow_flags s → buttons_follow_flags (snd (callback env c s)).
Proof.
  intros I.
  destruct c; cbn [callback];
    unfold _onHashChange, _onHome, _onReloadData, _onLogout,
      _onExpireAccessToken, _onExpireRefreshToken, try_catch, and_then, get_app, pure;
    repeat kept; keep; exact I.
Qed.

(** X21. If the two button calls themselves do not throw, then after any
    sequence of callbacks (hash changes, home, reload, token expiry,
    logout), each run to its end, whether or not they fail: the last call
    made to the session buttons is [enableSessionButtons] exactly when
    both load flags are set. *)
Theorem callbacks_keep_buttons_in_step (cs : list Callback) (s : Page X) :
  buttons_follow_flags s → buttons_follow_flags (run_callbacks env cs s).
Proof.
  revert s. induction cs as [| c cs IH]; intros s I; [exact I |].
  cbn [run_callbacks fold_left]. apply IH. by apply callback_keeps_buttons.
Qed.

End Buttons.

(** *** The logged-out page *)

Lemma keeps_hash_and_then {A B} (m : ST X A) (f : A → ST X B) :
  keeps_hash m → (∀ a, keeps_hash (f a)) → keeps_hash (and_then X m f).
Proof.
  intros Hm Hf s. unfold and_then. specialize (Hm s).
  destruct (m s) as [[e | a] s']; cbn in *; [done |].
  by rewrite Hf.
Qed.

Lemma keeps_hash_try_catch (body : ST X unit) (handler : exn → ST X unit) :
  keeps_hash body → (∀ e, keeps_hash (handler e)) → keeps_hash (try_catch X body handler).
Proof.
  intros Hm Hf s. unfold try_catch. specialize (Hm s).
  destruct (body s) as [[e | a] s']; cbn in *; [| done].
  by rewrite Hf.
Qed.

Section NoNavigation.

Hypothesis Hnav : no_navigation env.

Lemma keeps_hash_call (c : Call) : keeps_hash (call X env c).
Proof.
  intros s. unfold call. specialize (Hnav c (location_hash s) (outside s)).
  by destruct (env c (location_hash s) (outside s)) as [[r h] x].
Qed.

Lemma keeps_hash_via (f : Field) (c : Call) : keeps_hash (via X env f c).
Proof.
  intros s. unfold via. destruct (field f (app s)); [apply keeps_hash_call | done].
Qed.

Lemma keeps_hash_construct (f : Field) (c : Call) : keeps_hash (construct X env f c).
Proof.
  apply keeps_hash_and_then; [apply keeps_hash_call | done].
Qed.

Ltac hash_kept :=
  repeat first
    [ apply keeps_hash_and_then
    | apply keeps_hash_try_catch
    | apply keeps_hash_construct
    | apply keeps_hash_via
    | apply keeps_hash_call
    | intros ?
    | done ].

Lemma keeps_hash_initialRender : keeps_hash (_initialRender env).
Proof. unfold _initialRender. hash_kept. Qed.

Lemma keeps_hash_initialiseApp : keeps_hash (_initialiseApp env).
Proof. unfold _initialiseApp. hash_kept. Qed.

Lemma keeps_hash_handleLoginResponse : keeps_hash (_handleLoginResponse env).
Proof. unfold _handleLoginResponse. hash_kept. Qed.

Lemma keeps_hash_loadMainView : keeps_hash (_loadMainView env).
Proof.
  unfold _loadMainView.
  apply keeps_hash_try_catch; [| done].
  do 3 (apply keeps_hash_and_then; [hash_kept | intros ?]).
  apply keeps_hash_and_then; [| done]. destruct (_userInfoLoaded _); hash_kept.
Qed.

Lemma loadMainView_api (s : Page X) :
  api_calls (calls (snd (_loadMainView env s))) = api_calls (calls s)
  ∨ api_calls (calls (snd (_loadMainView env s))) = api_calls (calls s) ++ [Router_loadView].
Proof. run_app; try (by left); by right. Qed.

(** X22. Provided no collaborator navigates: when [execute] runs on a page
    whose hash contains [loggedout], the user info is not asked for (the
    only API call it can make is the load of the main view) and
    [_userInfoLoaded] stays as it was. *)
Theorem execute_skips_user_info_when_logged_out (s : Page X) :
  not_logged_out (location_hash s) = false →
  let out := execute env s in
  _userInfoLoaded (app (snd out)) = _userInfoLoaded (app s)
  ∧ (api_calls (calls (snd out)) = api_calls (calls s)
     ∨ api_calls (calls (snd out)) = api_calls (calls s) ++ [Router_loadView]).
Proof.
  intros Hout out. subst out.
  assert (Hcatch : ∀ e s',
             let out := (match _errorView (app s') with
                         | Some _ => call X env (ErrorView_report e)
                         | None => pure X tt
                         end) s' in
             app (snd out) = app s'
             ∧ api_calls (calls (snd out)) = api_calls (calls s')).
  { intros e s'. destruct (_errorView (app s')); [| done].
    unfold call. destruct (env _ _ _) as [[r h] x]. cbn.
    by rewrite api_calls_snoc, app_nil_r. }
  unfold execute, try_catch, and_then, listen_for_hash_changes, get_hash, get_app.
  after (_initialRender env)
    (fun s => conj (initialRender_frame s) (keeps_hash_initialRender s)).
  { destruct (Hcatch e s0) as [-> ->]. unpack. split; [congruence | left; congruence]. }
  after (_initialiseApp env)
    (fun s => conj (initialiseApp_frame s) (keeps_hash_initialiseApp s)).
  { destruct (Hcatch e s1) as [-> ->]. unpack. split; [congruence | left; congruence]. }
  after (_handleLoginResponse env)
    (fun s => conj (handleLoginResponse_frame s) (keeps_hash_handleLoginResponse s)).
  { destruct (Hcatch e s2) as [-> ->]. unpack. split; [congruence | left; congruence]. }
  pose proof (loadMainView_api s2) as Hapi.
  after (_loadMainView env)
    (fun s => conj (loadMainView_frame s) (keeps_hash_loadMainView s)).
  { destruct (Hcatch e s3) as [-> ->]. unpack.
    split; [congruence |]. destruct Hapi as [Hapi | Hapi]; [left | right]; congruence. }
  assert (Hh : location_hash s3 = location_hash s) by (unpack; keep; congruence).
  rewrite Hh, Hout. unfold pure. keep. unpack.
  split; [congruence |]. destruct Hapi as [Hapi | Hapi]; [left | right]; congruence.
Qed.

End NoNavigation.

End AppFacts.

(** ** The single-page application in two sample browsers *)

Section AppWitnesses.

Import App.

Lemma calm_is_quiet (c : Call) : never_throws calm c.
Proof. intros h x. reflexivity. Qed.

Lemma offline_buttons_quiet :
  never_throws offline HeaderButtonsView_disableSessionButtons
  ∧ never_throws offline HeaderButtonsView_enableSessionButtons
  ∧ never_throws offline TraceListener_updateLogLevelIfRequired.
Proof. repeat split; intros h x; reflexivity. Qed.

Lemma offline_reports_quietly (e : exn) : never_throws offline (ErrorView_report e).
Proof. intros h x. reflexivity. Qed.

Lemma offline_logs_quietly (e : exn) : never_throws offline (ErrorConsoleReporter_output e).
Proof. intros h x. reflexivity. Qed.

Lemma calm_does_not_navigate : no_navigation calm.
Proof. intros c h x. reflexivity. Qed.

Lemma started_fields :
  _errorView (app started) = Some tt
  ∧ _headerButtonsView (app started) = Some tt
  ∧ _traceListener (app started) = Some tt
  ∧ _isInitialised (app started) = true
  ∧ _mainViewLoaded (app started) = true
  ∧ _userInfoLoaded (app started) = true
  ∧ sessions_enabled (calls started) = true.
Proof. vm_compute. repeat split. Qed.

Lemma started_has (f : t → option object) :
  f (app started) = Some tt → is_Some (f (app started)).
Proof. intros ->. by exists tt. Qed.

Lemma started_buttons_follow_flags : buttons_follow_flags started.
Proof.
  destruct started_fields as (_ & Hh & _ & _ & Hm & Hu & Hs).
  split; [by apply (started_has _headerButtonsView) | by rewrite Hs, Hm, Hu].
Qed.

Lemma failed_reload_has_error_view : is_Some (_errorView (app failed_reload)).
Proof. exists tt. vm_compute. reflexivity. Qed.

Lemma logged_out_hash : not_logged_out (location_hash logged_out) = false.
Proof. vm_compute. reflexivity. Qed.

Lemma load_enables_buttons_iff_both_loaded_witness :
  sessions_enabled (calls (snd (_loadMainView offline started)))
  = _mainViewLoaded (app (snd (_loadMainView offline started)))
    && _userInfoLoaded (app (snd (_loadMainView offline started)))
  ∧ sessions_enabled (calls (snd (_loadMainView offline started))) = false.
Proof.
  split; [| vm_compute; reflexivity].
  destruct offline_buttons_quiet as (Qd & Qe & _).
  destruct started_fields as (_ & Hh & _).
  pose proof (load_enables_buttons_iff_both_loaded unit offline started Qd Qe
                (started_has _headerButtonsView Hh)) as [H _].
  exact H.
Defined.

Lemma onReloadData_reports_failures_witness :
  fst (_onReloadData offline started) = inr tt
  ∧ reports (calls (snd (_onReloadData offline started))) = [Classified ServerError].
Proof.
  split; [| vm_compute; reflexivity].
  destruct started_fields as (He & _).
  pose proof (onReloadData_reports_failures unit offline started
                offline_reports_quietly (started_has _errorView He)) as [H _].
  exact H.
Defined.

Lemma onHome_recovers_or_reports_witness :
  fst (_onHome calm failed_reload) = inr tt
  ∧ _mainViewLoaded (app failed_reload) = false
  ∧ _mainViewLoaded (app (snd (_onHome calm failed_reload))) = true.
Proof.
  split; [| split; vm_compute; reflexivity].
  pose proof (onHome_recovers_or_reports unit calm failed_reload
                (fun e => calm_is_quiet _) failed_reload_has_error_view) as [H _].
  exact H.
Defined.

Lemma onHome_when_loaded_only_navigates_witness :
  calls (snd (_onHome offline started)) = calls started.
Proof.
  destruct started_fields as (_ & _ & _ & Hi & Hm & Hu & _).
  rewrite (onHome_when_loaded_only_navigates unit offline started Hi Hm Hu).
  reflexivity.
Defined.

Lemma execute_without_config : _traceListener (app (snd (execute no_config blank))) = None.
Proof. vm_compute. reflexivity. Qed.

Lemma onHashChange_before_trace_listener_witness :
  onhashchange (snd (execute no_config blank)) = true
  ∧ _onHashChange no_config (snd (execute no_config blank))
    = (inl type_error, snd (execute no_config blank)).
Proof.
  exact (onHashChange_before_trace_listener unit no_config blank execute_without_config).
Defined.

Lemma onHashChange_loads_when_initialised_witness :
  fst (_onHashChange offline started) = inr tt
  ∧ reports (calls (snd (_onHashChange offline started))) = [Classified ServerError].
Proof.
  split; [| vm_compute; reflexivity].
  destruct offline_buttons_quiet as (_ & _ & Qt).
  destruct started_fields as (He & _ & Ht & _).
  pose proof (onHashChange_loads_when_initialised unit offline started
                offline_reports_quietly Qt
                (started_has _traceListener Ht) (started_has _errorView He)) as [H _].
  exact H.
Defined.

Lemma onLogout_falls_back_to_logged_out_witness :
  fst (_onLogout offline blank) = inr tt
  ∧ calls (snd (_onLogout offline blank)) = [ErrorConsoleReporter_output type_error]
  ∧ location_hash (snd (_onLogout offline blank)) = "#/loggedout".
Proof.
  pose proof (onLogout_falls_back_to_logged_out unit offline blank
                offline_logs_quietly) as (H & _ & _ & Hc & Hh & _).
  split; [exact H |]. split; [exact Hc | exact Hh].
Defined.

Lemma execute_never_throws_witness :
  fst (execute offline blank) = inr tt
  ∧ reports (calls (snd (execute offline blank))) = [Classified ServerError].
Proof.
  split; [| vm_compute; reflexivity].
  pose proof (execute_never_throws unit offline blank offline_reports_quietly) as [H _].
  exact H.
Defined.

Lemma callbacks_keep_buttons_in_step_witness :
  buttons_follow_flags (run_callbacks offline sample_callbacks started)
  ∧ sessions_enabled (calls (run_callbacks offline sample_callbacks started)) = false.
Proof.
  split; [| vm_compute; reflexivity].
  destruct offline_buttons_quiet as (Qd & Qe & _).
  exact (callbacks_keep_buttons_in_step unit offline Qd Qe sample_callbacks started
           started_buttons_follow_flags).
Defined.

Lemma execute_skips_user_info_when_logged_out_witness :
  _userInfoLoaded (app (snd (execute calm logged_out))) = _userInfoLoaded (app logged_out)
  ∧ api_calls (calls (snd (execute calm logged_out))) = [Router_loadView].
Proof.
  split; [| vm_compute; reflexivity].
  pose proof (execute_skips_user_info_when_logged_out unit calm calm_does_not_navigate
                logged_out logged_out_hash) as [H _].
  exact H.
Defined.

End AppWitnesses.
